(** * Q2.py: a directed graph, user profiles and the social-media facade

    A shallow embedding of the classes [DirectedGraph], [Privacy], [Person]
    and [SocialMediaApp] of [src/Q2.py], followed by the properties of the
    specification that concern them.

    Modelling choices.
    - A Python [dict] is a [gmap], a Python [set] is a [gset]; ids are the
      keys, so they range over a countable type with decidable equality
      (the hashable values), and are strings in the facade.  The order in
      which Python lists the elements of a set is unspecified (and for
      strings it changes from one interpreter run to the next); a dict is
      listed in insertion order, which [map_to_list] does not keep.  So
      every statement about a returned list speaks of membership or of its
      contents up to permutation, never of positions.
    - Indexing a dict ([d[k]]) and [set.remove] raise [KeyError] in Python
      when the key or the element is missing.  They are modelled as fallible
      operations in the [result] monad, so that "this call does not raise"
      is something to prove, not something built into the model.
    - A method that mutates [self] takes the object and returns the new one
      next to its return value.  A method that only reads returns its value.
      [Raise] carries no state: in each method every lookup that can raise
      comes before the first write to the graph, and [add_vertex], the only
      call made after a write to [users], has none.
    - The adjacency sets are created by [set()] in [add_vertex], one per
      vertex, and are never handed out ([list(...)] copies), so no two
      entries alias and a functional map of sets is exact.
    - [Person] objects are never written to by the classes modelled here, so
      the object shared by [users] and by the vertex payload is a value.

    The set-up code of [main] in the same file, the folding hash of the
    identity-card script and the workload of the timing benchmark are
    embedded after the classes; their modelling choices are given where
    they are defined. *)

From stdpp Require Import gmap strings list fin_maps fin_sets.
From Stdlib Require Import ZArith.
From Stdlib Require Import Ascii.
From stdpp Require Import pretty list_numbers.
From Stdlib Require QArith.QArith_base.

(** ** Exceptions *)

Inductive exn : Type := KeyError.

Inductive result (A : Type) : Type :=
  | Ok (a : A)
  | Raise (e : exn).
Arguments Ok {A} a.
Arguments Raise {A} e.

#[global] Instance result_ret : MRet result := λ A a, Ok a.
#[global] Instance result_bind : MBind result := λ A B k m,
  match m with
  | Ok a => k a
  | Raise e => Raise e
  end.

(** ** Python primitives on dicts and sets *)

Section py_prims.
Context {K : Type} `{Countable K} {A : Type}.

(** [k in d] *)
Definition dict_contains (k : K) (d : gmap K A) : bool :=
  bool_decide (is_Some (d !! k)).

(** [d[k]] *)
Definition dict_getitem (d : gmap K A) (k : K) : result A :=
  match d !! k with
  | Some v => Ok v
  | None => Raise KeyError
  end.

(** [d.get(k)]: [None] when the key is missing *)
Definition dict_get (d : gmap K A) (k : K) : option A := d !! k.

(** [list(d.keys())] and [list(d.values())] *)
Definition dict_keys (d : gmap K A) : list K := (map_to_list d).*1.
Definition dict_values (d : gmap K A) : list A := (map_to_list d).*2.

(** [x in s] *)
Definition set_contains (x : K) (s : gset K) : bool := bool_decide (x ∈ s).

(** [s.remove(x)] *)
Definition set_remove (s : gset K) (x : K) : result (gset K) :=
  if set_contains x s then Ok (s ∖ {[x]}) else Raise KeyError.

(** [s.add(x)] *)
Definition set_add (s : gset K) (x : K) : gset K := s ∪ {[x]}.
End py_prims.

(** ** class DirectedGraph *)

Section directed_graph.
Context {K : Type} `{Countable K} {V : Type}.

Record DirectedGraph : Type := mkDirectedGraph {
  _adjacency_list : gmap K (gset K);
  _vertices : gmap K V
}.

(** [DirectedGraph()] *)
Definition DirectedGraph_init : DirectedGraph :=
  {| _adjacency_list := ∅; _vertices := ∅ |}.

(** The payload defaults to [None] in Python; here the caller passes it. *)
Definition add_vertex (vertex_id : K) (vertex_data : V) (self : DirectedGraph)
  : result (bool * DirectedGraph) :=
  if dict_contains vertex_id (_vertices self) then Ok (false, self)
  else
    Ok (true,
        {| _vertices := <[vertex_id := vertex_data]> (_vertices self);
           _adjacency_list := <[vertex_id := ∅]> (_adjacency_list self) |}).

Definition add_edge (from_vertex to_vertex : K) (self : DirectedGraph)
  : result (bool * DirectedGraph) :=
  if negb (dict_contains from_vertex (_vertices self))
     || negb (dict_contains to_vertex (_vertices self))
  then Ok (false, self)
  else
    adjacents ← dict_getitem (_adjacency_list self) from_vertex;
    if set_contains to_vertex adjacents then Ok (false, self)
    else
      adjacents ← dict_getitem (_adjacency_list self) from_vertex;
      Ok (true,
          {| _vertices := _vertices self;
             _adjacency_list :=
               <[from_vertex := set_add adjacents to_vertex]>
                 (_adjacency_list self) |}).

Definition remove_edge (from_vertex to_vertex : K) (self : DirectedGraph)
  : result (bool * DirectedGraph) :=
  if negb (dict_contains from_vertex (_vertices self))
     || negb (dict_contains to_vertex (_vertices self))
  then Ok (false, self)
  else
    adjacents ← dict_getitem (_adjacency_list self) from_vertex;
    if negb (set_contains to_vertex adjacents) then Ok (false, self)
    else
      adjacents ← dict_getitem (_adjacency_list self) from_vertex;
      adjacents' ← set_remove adjacents to_vertex;
      Ok (true,
          {| _vertices := _vertices self;
             _adjacency_list :=
               <[from_vertex := adjacents']> (_adjacency_list self) |}).

Definition list_outgoing_adjacent_vertices (vertex : K) (self : DirectedGraph)
  : result (list K) :=
  if negb (dict_contains vertex (_vertices self)) then Ok []
  else
    adjacents ← dict_getitem (_adjacency_list self) vertex;
    Ok (elements adjacents).

(** The loop [for v, adjacents in self._adjacency_list.items()] with its
    accumulator [incoming]. *)
Definition incoming_loop (vertex : K) (items : list (K * gset K)) : list K :=
  foldl (λ incoming '(v, adjacents),
           if set_contains vertex adjacents then incoming ++ [v]
           else incoming)
        [] items.

Definition list_incoming_adjacent_vertices (vertex : K) (self : DirectedGraph)
  : result (list K) :=
  if negb (dict_contains vertex (_vertices self)) then Ok []
  else Ok (incoming_loop vertex (map_to_list (_adjacency_list self))).

Definition get_vertex_data (vertex_id : K) (self : DirectedGraph) : option V :=
  dict_get (_vertices self) vertex_id.

Definition get_all_vertices (self : DirectedGraph) : list K :=
  dict_keys (_vertices self).

Definition vertex_exists (vertex_id : K) (self : DirectedGraph) : bool :=
  dict_contains vertex_id (_vertices self).
End directed_graph.
Arguments DirectedGraph K {_ _} V.

(** ** class Privacy(Enum) *)

Inductive Privacy : Type := PUBLIC | PRIVATE.

#[global] Instance Privacy_eq_dec : EqDecision Privacy.
Proof. solve_decision. Defined.

(** [Privacy.value] *)
Definition Privacy_value (p : Privacy) : string :=
  match p with
  | PUBLIC => "public"
  | PRIVATE => "private"
  end.

(** ** class Person *)

(** The values a profile dictionary holds: [str], [int] and [None]. *)
Inductive pyval : Type :=
  | PyStr (s : string)
  | PyInt (z : Z)
  | PyNone.

#[global] Instance pyval_eq_dec : EqDecision pyval.
Proof. solve_decision. Defined.

(** [Optional[int]] as a dictionary value *)
Definition py_optional_int (o : option Z) : pyval :=
  match o with
  | Some z => PyInt z
  | None => PyNone
  end.

(** The attributes set by [Person.__init__], in the order of its
    parameters.  [age] is an [Optional[int]]. *)
Record Person : Type := Person_init {
  user_id : string;
  name : string;
  gender : string;
  biography : string;
  privacy : Privacy;
  age : option Z;
  location : string
}.

#[global] Instance Person_eq_dec : EqDecision Person.
Proof. solve_decision. Defined.

(** [Person(user_id, name)]: the other parameters at their defaults. *)
Definition Person_default (user_id name : string) : Person :=
  Person_init user_id name "" "" PUBLIC None "".

Definition get_public_info (self : Person) : gmap string pyval :=
  list_to_map
    [ ("user_id", PyStr (user_id self));
      ("name", PyStr (name self)) ].

Definition get_full_info (self : Person) : gmap string pyval :=
  list_to_map
    [ ("user_id", PyStr (user_id self));
      ("name", PyStr (name self));
      ("gender", PyStr (gender self));
      ("biography", PyStr (biography self));
      ("privacy", PyStr (Privacy_value (privacy self)));
      ("age", py_optional_int (age self));
      ("location", PyStr (location self)) ].

(** ** class SocialMediaApp *)

Record SocialMediaApp : Type := mkSocialMediaApp {
  graph : DirectedGraph string Person;
  users : gmap string Person
}.

(** [SocialMediaApp()] *)
Definition SocialMediaApp_init : SocialMediaApp :=
  {| graph := DirectedGraph_init; users := ∅ |}.

Definition add_user (person : Person) (self : SocialMediaApp)
  : result (bool * SocialMediaApp) :=
  if dict_contains (user_id person) (users self) then Ok (false, self)
  else
    let users' := <[user_id person := person]> (users self) in
    '(added, graph') ← add_vertex (user_id person) person (graph self);
    Ok (added, {| graph := graph'; users := users' |}).

Definition follow_user (follower_id followee_id : string) (self : SocialMediaApp)
  : result (bool * SocialMediaApp) :=
  if negb (dict_contains follower_id (users self))
     || negb (dict_contains followee_id (users self))
  then Ok (false, self)
  else
    '(added, graph') ← add_edge follower_id followee_id (graph self);
    Ok (added, {| graph := graph'; users := users self |}).

Definition unfollow_user (follower_id followee_id : string) (self : SocialMediaApp)
  : result (bool * SocialMediaApp) :=
  '(removed, graph') ← remove_edge follower_id followee_id (graph self);
  Ok (removed, {| graph := graph'; users := users self |}).

(** The comprehension [[self.users[uid] for uid in ids if uid in self.users]] *)
Fixpoint users_of_ids (users : gmap string Person) (ids : list string)
  : result (list Person) :=
  match ids with
  | [] => Ok []
  | uid :: ids' =>
      if dict_contains uid users then
        person ← dict_getitem users uid;
        persons ← users_of_ids users ids';
        Ok (person :: persons)
      else users_of_ids users ids'
  end.

Definition get_following (uid : string) (self : SocialMediaApp)
  : result (list Person) :=
  following_ids ← list_outgoing_adjacent_vertices uid (graph self);
  users_of_ids (users self) following_ids.

Definition get_followers (uid : string) (self : SocialMediaApp)
  : result (list Person) :=
  follower_ids ← list_incoming_adjacent_vertices uid (graph self);
  users_of_ids (users self) follower_ids.

Definition get_all_users (self : SocialMediaApp) : list Person :=
  dict_values (users self).

Definition get_user (uid : string) (self : SocialMediaApp) : option Person :=
  dict_get (users self) uid.

(** ** Calls as data

    One constructor per public method, so that "every operation" and "a
    sequence of operations" can be quantified over. *)

Section graph_calls.
Context {K : Type} `{Countable K} {V : Type}.

Inductive graph_op : Type :=
  | GAddVertex (vertex_id : K) (vertex_data : V)
  | GAddEdge (from_vertex to_vertex : K)
  | GRemoveEdge (from_vertex to_vertex : K)
  | GListOutgoing (vertex : K)
  | GListIncoming (vertex : K)
  | GGetVertexData (vertex_id : K)
  | GGetAllVertices
  | GVertexExists (vertex_id : K).

Inductive graph_ret : Type :=
  | GBool (b : bool)
  | GIds (ids : list K)
  | GData (data : option V).

Definition graph_call (op : graph_op) (self : DirectedGraph K V)
  : result (graph_ret * DirectedGraph K V) :=
  match op with
  | GAddVertex i d => '(b, g) ← add_vertex i d self; Ok (GBool b, g)
  | GAddEdge a b => '(r, g) ← add_edge a b self; Ok (GBool r, g)
  | GRemoveEdge a b => '(r, g) ← remove_edge a b self; Ok (GBool r, g)
  | GListOutgoing v =>
      l ← list_outgoing_adjacent_vertices v self; Ok (GIds l, self)
  | GListIncoming v =>
      l ← list_incoming_adjacent_vertices v self; Ok (GIds l, self)
  | GGetVertexData i => Ok (GData (get_vertex_data i self), self)
  | GGetAllVertices => Ok (GIds (get_all_vertices self), self)
  | GVertexExists i => Ok (GBool (vertex_exists i self), self)
  end.
End graph_calls.
Arguments graph_op K V : clear implicits.
Arguments graph_ret K V : clear implicits.

Inductive app_op : Type :=
  | AddUser (person : Person)
  | FollowUser (follower_id followee_id : string)
  | UnfollowUser (follower_id followee_id : string)
  | GetFollowing (uid : string)
  | GetFollowers (uid : string)
  | GetAllUsers
  | GetUser (uid : string).

Inductive app_ret : Type :=
  | RBool (b : bool)
  | RPersons (persons : list Person)
  | RPerson (person : option Person).

Definition app_call (op : app_op) (self : SocialMediaApp)
  : result (app_ret * SocialMediaApp) :=
  match op with
  | AddUser p => '(b, s) ← add_user p self; Ok (RBool b, s)
  | FollowUser a b => '(r, s) ← follow_user a b self; Ok (RBool r, s)
  | UnfollowUser a b => '(r, s) ← unfollow_user a b self; Ok (RBool r, s)
  | GetFollowing u => l ← get_following u self; Ok (RPersons l, self)
  | GetFollowers u => l ← get_followers u self; Ok (RPersons l, self)
  | GetAllUsers => Ok (RPersons (get_all_users self), self)
  | GetUser u => Ok (RPerson (get_user u self), self)
  end.

(** A run: the calls one after the other, collecting what they return. *)
Fixpoint app_run (ops : list app_op) (self : SocialMediaApp)
  : result (list app_ret * SocialMediaApp) :=
  match ops with
  | [] => Ok ([], self)
  | op :: ops' =>
      '(r, s) ← app_call op self;
      '(rs, s') ← app_run ops' s;
      Ok (r :: rs, s')
  end.

Fixpoint graph_run {K : Type} `{Countable K} {V : Type}
    (ops : list (graph_op K V)) (self : DirectedGraph K V)
  : result (list (graph_ret K V) * DirectedGraph K V) :=
  match ops with
  | [] => Ok ([], self)
  | op :: ops' =>
      '(r, g) ← graph_call op self;
      '(rs, g') ← graph_run ops' g;
      Ok (r :: rs, g')
  end.

(** ** Invariants *)

(** The two mappings of a graph have the same keys, and every edge ends in
    a vertex. *)
Definition graph_inv {K : Type} `{Countable K} {V : Type}
    (g : DirectedGraph K V) : Prop :=
  dom (_adjacency_list g) = dom (_vertices g)
  ∧ map_Forall (λ _ adjacents, adjacents ⊆ dom (_vertices g)) (_adjacency_list g).

#[global] Instance graph_inv_dec {K : Type} `{Countable K} {V : Type}
    (g : DirectedGraph K V) : Decision (graph_inv g).
Proof. unfold graph_inv. apply _. Defined.

(** The users of the facade are exactly the vertices of its graph. *)
Definition lock_step (s : SocialMediaApp) : Prop :=
  dom (users s) = dom (_vertices (graph s)).

Definition app_inv (s : SocialMediaApp) : Prop :=
  graph_inv (graph s) ∧ lock_step s.

#[global] Instance app_inv_dec (s : SocialMediaApp) : Decision (app_inv s).
Proof. unfold app_inv, lock_step. apply _. Defined.

(** Sample data from [create_sample_users] and a state built from it. *)
Definition alice : Person :=
  Person_init "alice123" "Alice Johnson" "Female" "Love traveling and photography! 📸✈️"
    PUBLIC (Some 28%Z) "New York".
Definition bob : Person :=
  Person_init "bob_dev" "Bob Smith" "Male" "Software developer | Coffee enthusiast ☕"
    PUBLIC (Some 32%Z) "San Francisco".
Definition charlie : Person :=
  Person_init "charlie_art" "Charlie Brown" "Male" "Digital artist and designer 🎨"
    PRIVATE (Some 25%Z) "Los Angeles".

Definition state_after (ops : list app_op) : SocialMediaApp :=
  match app_run ops SocialMediaApp_init with
  | Ok (_, s) => s
  | Raise _ => SocialMediaApp_init
  end.

Definition sample_app : SocialMediaApp :=
  state_after [AddUser alice; AddUser bob; AddUser charlie;
               FollowUser "alice123" "bob_dev"; FollowUser "bob_dev" "charlie_art"].

(** Users "a", "b" and "c", with "a" following the other two. *)
Definition abc_app : SocialMediaApp :=
  state_after [AddUser (Person_default "a" "A"); AddUser (Person_default "b" "B");
               AddUser (Person_default "c" "C");
               FollowUser "a" "b"; FollowUser "a" "c"].

(** ** Specification vocabulary for the graph *)

Section graph_specs.
Context {K : Type} `{Countable K} {V : Type}.
Implicit Types (g : DirectedGraph K V) (a v : K).

(** Both endpoints are vertices. *)
Definition endpoints_exist a (b : K) g : Prop :=
  is_Some (_vertices g !! a) ∧ is_Some (_vertices g !! b).

(** The four ways a call of [add_edge] can end. *)
Inductive add_edge_outcome a (b : K) g : result (bool * DirectedGraph K V) → Prop :=
  | add_edge_rejected :
      ¬ endpoints_exist a b g →
      add_edge_outcome a b g (Ok (false, g))
  | add_edge_duplicate adjacents :
      endpoints_exist a b g →
      _adjacency_list g !! a = Some adjacents → b ∈ adjacents →
      add_edge_outcome a b g (Ok (false, g))
  | add_edge_added adjacents :
      endpoints_exist a b g →
      _adjacency_list g !! a = Some adjacents → b ∉ adjacents →
      add_edge_outcome a b g
        (Ok (true, {| _vertices := _vertices g;
                      _adjacency_list :=
                        <[a := adjacents ∪ {[b]}]> (_adjacency_list g) |}))
  | add_edge_raised :
      endpoints_exist a b g →
      _adjacency_list g !! a = None →
      add_edge_outcome a b g (Raise KeyError).

(** The four ways a call of [remove_edge] can end. *)
Inductive remove_edge_outcome a (b : K) g : result (bool * DirectedGraph K V) → Prop :=
  | remove_edge_rejected :
      ¬ endpoints_exist a b g →
      remove_edge_outcome a b g (Ok (false, g))
  | remove_edge_absent adjacents :
      endpoints_exist a b g →
      _adjacency_list g !! a = Some adjacents → b ∉ adjacents →
      remove_edge_outcome a b g (Ok (false, g))
  | remove_edge_removed adjacents :
      endpoints_exist a b g →
      _adjacency_list g !! a = Some adjacents → b ∈ adjacents →
      remove_edge_outcome a b g
        (Ok (true, {| _vertices := _vertices g;
                      _adjacency_list :=
                        <[a := adjacents ∖ {[b]}]> (_adjacency_list g) |}))
  | remove_edge_raised :
      endpoints_exist a b g →
      _adjacency_list g !! a = None →
      remove_edge_outcome a b g (Raise KeyError).

(** The edge [(a, b)] is recorded. *)
Definition has_edge a (b : K) g : bool :=
  match _adjacency_list g !! a with
  | Some adjacents => set_contains b adjacents
  | None => false
  end.

(** The contract of a call: a boolean from the methods that write,
    and nothing found, rather than an error, for an id that is not a
    vertex. *)
Definition graph_contract g (op : graph_op K V) (r : graph_ret K V) : Prop :=
  match op with
  | GAddVertex _ _ | GAddEdge _ _ | GRemoveEdge _ _ | GVertexExists _ =>
      ∃ flag : bool, r = GBool flag
  | GListOutgoing v | GListIncoming v =>
      ∃ ids, r = GIds ids ∧ (vertex_exists v g = false → ids = [])
  | GGetVertexData v =>
      ∃ data, r = GData data ∧ (vertex_exists v g = false → data = None)
  | GGetAllVertices => ∃ ids, r = GIds ids
  end.

End graph_specs.

(** ** Specification vocabulary for the facade *)

(** What a call of the facade owes its caller: a boolean from the methods
    that write, and nothing found, rather than an error, for an id that is
    not a user. *)
Definition app_contract (s : SocialMediaApp) (op : app_op) (r : app_ret) : Prop :=
  match op with
  | AddUser _ | FollowUser _ _ | UnfollowUser _ _ => ∃ flag : bool, r = RBool flag
  | GetFollowing uid | GetFollowers uid =>
      ∃ persons, r = RPersons persons ∧ (users s !! uid = None → persons = [])
  | GetAllUsers => ∃ persons, r = RPersons persons
  | GetUser uid =>
      ∃ person, r = RPerson person ∧ (users s !! uid = None → person = None)
  end.

(** A function mapped over the payloads of a graph. *)
Definition graph_map {K : Type} `{Countable K} {V W : Type}
    (f : V → W) (g : DirectedGraph K V) : DirectedGraph K W :=
  {| _adjacency_list := _adjacency_list g; _vertices := f <$> _vertices g |}.

#[global] Instance result_fmap : FMap result := λ A B f m,
  match m with
  | Ok a => Ok (f a)
  | Raise e => Raise e
  end.

(** The profile with its privacy forgotten. *)
Definition erase_privacy (p : Person) : Person :=
  {| user_id := user_id p; name := name p; gender := gender p;
     biography := biography p; privacy := PUBLIC; age := age p;
     location := location p |}.

(** Two profiles that are identical except, possibly, for their privacy. *)
Definition same_but_privacy (p q : Person) : Prop :=
  erase_privacy p = erase_privacy q.

Definition op_erase (op : app_op) : app_op :=
  match op with
  | AddUser p => AddUser (erase_privacy p)
  | _ => op
  end.

(** The same call, on profiles that differ at most in their privacy. *)
Definition same_call_but_privacy (op1 op2 : app_op) : Prop :=
  op_erase op1 = op_erase op2.

Definition app_erase (s : SocialMediaApp) : SocialMediaApp :=
  {| graph := graph_map erase_privacy (graph s);
     users := erase_privacy <$> users s |}.

(** What two corresponding calls return: the same boolean; lists of
    profiles with the same ids, and the same profiles once privacy is
    forgotten, in some order; the same optional profile once privacy is
    forgotten. *)
Definition ret_similar (r1 r2 : app_ret) : Prop :=
  match r1, r2 with
  | RBool b1, RBool b2 => b1 = b2
  | RPersons l1, RPersons l2 =>
      user_id <$> l1 ≡ₚ user_id <$> l2
      ∧ erase_privacy <$> l1 ≡ₚ erase_privacy <$> l2
  | RPerson o1, RPerson o2 => erase_privacy <$> o1 = erase_privacy <$> o2
  | _, _ => False
  end.

(** What a call returns, against what it returns on erased profiles. *)
Definition ret_erased (r r' : app_ret) : Prop :=
  match r, r' with
  | RBool b, RBool b' => b = b'
  | RPersons l, RPersons l' => erase_privacy <$> l ≡ₚ l'
  | RPerson o, RPerson o' => erase_privacy <$> o = o'
  | _, _ => False
  end.

Definition outcome_erased {A : Type} (R : A → A → Prop)
    (m m' : result (A * SocialMediaApp)) : Prop :=
  match m, m' with
  | Ok (r, s), Ok (r', s') => R r r' ∧ s' = app_erase s
  | Raise e, Raise e' => e = e'
  | _, _ => False
  end.

(** More sample data. *)
Definition alice_again : Person :=
  Person_init "alice123" "Alice Cooper" "" "" PRIVATE None "".

Definition charlie_public : Person :=
  Person_init "charlie_art" "Charlie Brown" "Male" "Digital artist and designer 🎨"
    PUBLIC (Some 25%Z) "Los Angeles".

(** ** The module-level set-up of Q2.py *)

Definition diana : Person :=
  Person_init "diana_fit" "Diana Wilson" "Female"
    "Fitness trainer | Healthy living advocate 💪"
    PUBLIC (Some 29%Z) "Miami".
Definition eve : Person :=
  Person_init "eve_music" "Eve Martinez" "Female"
    "Musician and composer 🎵 | Classical pianist"
    PRIVATE (Some 31%Z) "Chicago".
Definition frank : Person :=
  Person_init "frank_chef" "Frank Thompson" "Male"
    "Professional chef | Food blogger 👨‍🍳"
    PUBLIC (Some 35%Z) "Austin".
Definition grace : Person :=
  Person_init "grace_writer" "Grace Lee" "Female"
    "Author and blogger | Love books and tea 📚☕"
    PUBLIC (Some 27%Z) "Seattle".

Definition create_sample_users : list Person :=
  [alice; bob; charlie; diana; eve; frank; grace].

(** The loop [for follower, followee in connections:
    app.follow_user(follower, followee)]: what [follow_user] returns is
    dropped, what it raises is not caught. *)
Fixpoint follow_each (connections : list (string * string)) (app : SocialMediaApp)
  : result SocialMediaApp :=
  match connections with
  | [] => Ok app
  | (follower, followee) :: connections' =>
      '(_, app') ← follow_user follower followee app;
      follow_each connections' app'
  end.

Definition setup_connections (app : SocialMediaApp) : result SocialMediaApp :=
  let connections :=
    [ ("alice123", "bob_dev");
      ("alice123", "diana_fit");
      ("alice123", "frank_chef");
      ("bob_dev", "alice123");
      ("bob_dev", "charlie_art");
      ("charlie_art", "eve_music");
      ("charlie_art", "grace_writer");
      ("diana_fit", "alice123");
      ("diana_fit", "frank_chef");
      ("eve_music", "grace_writer");
      ("frank_chef", "alice123");
      ("frank_chef", "diana_fit");
      ("frank_chef", "grace_writer");
      ("grace_writer", "eve_music");
      ("grace_writer", "frank_chef") ] in
  follow_each connections app.

(** The loop [for user in sample_users: app.add_user(user)]. *)
Fixpoint add_each (sample_users : list Person) (app : SocialMediaApp)
  : result SocialMediaApp :=
  match sample_users with
  | [] => Ok app
  | user :: sample_users' =>
      '(_, app') ← add_user user app;
      add_each sample_users' app'
  end.

(** The first lines of [main], up to the menu loop. *)
Definition main_setup : result SocialMediaApp :=
  let app := SocialMediaApp_init in
  let sample_users := create_sample_users in
  app ← add_each sample_users app;
  setup_connections app.

(** ** More invariants of the facade *)

(** Every profile is filed under its own id, and the payload of a vertex
    is the profile of the user. *)
Definition app_wf (s : SocialMediaApp) : Prop :=
  app_inv s
  ∧ _vertices (graph s) = users s
  ∧ map_Forall (λ uid person, user_id person = uid) (users s).

#[global] Instance app_wf_dec (s : SocialMediaApp) : Decision (app_wf s).
Proof. unfold app_wf. apply _. Defined.

(** A follow that cannot succeed: an id is not a user or not a vertex, or
    the edge is there. *)
Definition follow_blocked (a b : string) (s : SocialMediaApp) : Prop :=
  ¬ (is_Some (users s !! a) ∧ is_Some (users s !! b))
  ∨ ¬ endpoints_exist a b (graph s)
  ∨ has_edge a b (graph s) = true.

(** The facade with the sample users, and the facade [main] starts its
    menu loop with. *)
Definition with_sample_users : SocialMediaApp :=
  match add_each create_sample_users SocialMediaApp_init with
  | Ok s => s
  | Raise _ => SocialMediaApp_init
  end.

Definition after_main_setup : SocialMediaApp :=
  match main_setup with
  | Ok s => s
  | Raise _ => SocialMediaApp_init
  end.

(** * Q1: the folding hash of identity-card numbers

    A Python [str] is a sequence of code points and a [string] here is a
    sequence of bytes.  The two agree on ASCII strings, which is what the
    program itself builds; where a string comes from the caller, the
    statements below ask for it to be ASCII.  On ASCII strings
    [s.isdigit()] holds exactly when [s] is not empty and each character is
    one of [0] to [9]. *)

Inductive py_error : Type := ValueError | ZeroDivisionError | IndexError.

Inductive outcome (A : Type) : Type :=
  | Return (a : A)
  | Throw (e : py_error).
Arguments Return {A} a.
Arguments Throw {A} e.

#[global] Instance py_error_eq_dec : EqDecision py_error.
Proof. solve_decision. Defined.

#[global] Instance outcome_eq_dec {A : Type} `{EqDecision A} :
  EqDecision (outcome A).
Proof. solve_decision. Defined.

#[global] Instance outcome_ret : MRet outcome := λ A a, Return a.
#[global] Instance outcome_bind : MBind outcome := λ A B k m,
  match m with
  | Return a => k a
  | Throw e => Throw e
  end.

Definition is_ascii (c : ascii) : bool := (nat_of_ascii c <? 128)%nat.

Definition is_ascii_digit (c : ascii) : bool :=
  (48 <=? nat_of_ascii c)%nat && (nat_of_ascii c <=? 57)%nat.

Fixpoint str_forall (f : ascii → bool) (s : string) : bool :=
  match s with
  | EmptyString => true
  | String c s' => f c && str_forall f s'
  end.

(** [s.isdigit()] *)
Definition str_isdigit (s : string) : bool :=
  match s with
  | EmptyString => false
  | String _ _ => str_forall is_ascii_digit s
  end.

Fixpoint str_drop (n : nat) (s : string) : string :=
  match n, s with
  | O, _ => s
  | S n', EmptyString => EmptyString
  | S n', String _ s' => str_drop n' s'
  end.

Fixpoint str_take (n : nat) (s : string) : string :=
  match n, s with
  | O, _ => EmptyString
  | S n', EmptyString => EmptyString
  | S n', String c s' => String c (str_take n' s')
  end.

(** [s[start:stop]] with [0 <= start]: a slice that runs past the end is
    cut short. *)
Definition str_slice (s : string) (start stop : nat) : string :=
  str_take (stop - start) (str_drop start s).

(** The number a string of decimal digits writes. *)
Definition decimal_value (s : string) : Z :=
  (fix go (acc : Z) (s : string) : Z :=
     match s with
     | EmptyString => acc
     | String c s' => go (10 * acc + (Z.of_nat (nat_of_ascii c) - 48))%Z s'
     end) 0%Z s.

(** [int(s)] on what [folding_hash] passes to it, slices of a string of
    digits.  (Python's [int] also reads signs, blanks and underscores; they
    do not occur here, and the model raises for everything but digits.) *)
Definition int_of_digits (s : string) : outcome Z :=
  if str_isdigit s then Return (decimal_value s) else Throw ValueError.

(** [sum(parts)] *)
Definition py_sum (parts : list Z) : Z := foldl Z.add 0%Z parts.

(** [a % b] on integers: the result has the sign of [b]. *)
Definition py_mod (a b : Z) : outcome Z :=
  if (b =? 0)%Z then Throw ZeroDivisionError else Return (a `mod` b)%Z.

Definition folding_hash (ic_number : string) (table_size : Z) : outcome Z :=
  if negb (String.length ic_number =? 12)%nat || negb (str_isdigit ic_number)
  then Throw ValueError
  else
    parts ← mapM (λ i, int_of_digits (str_slice ic_number i (i + 3)))
                 [0; 3; 6; 9]%nat;
    py_mod (py_sum parts) table_size.

(** The position [l[i]] denotes: negative indices count from the end. *)
Definition list_index {A : Type} (l : list A) (i : Z) : outcome nat :=
  let n := Z.of_nat (length l) in
  if (0 <=? i)%Z && (i <? n)%Z then Return (Z.to_nat i)
  else if (- n <=? i)%Z && (i <? 0)%Z then Return (Z.to_nat (n + i))
  else Throw IndexError.

(** One turn of the loop of [insert_to_hash_table], on the table and the
    count of collisions.  [table[idx]] is read once: the test and the
    [append] of the source see the same list. *)
Definition insert_one (table_size : Z) (state : list (list string) * Z)
    (ic : string) : outcome (list (list string) * Z) :=
  let '(table, collisions) := state in
  idx ← folding_hash ic table_size;
  k ← list_index table idx;
  match table !! k with
  | None => Throw IndexError
  | Some chain =>
      let collisions := if bool_decide (chain ≠ []) then (collisions + 1)%Z
                        else collisions in
      Return (<[k := chain ++ [ic]]> table, collisions)
  end.

Fixpoint insert_loop (table_size : Z) (ic_list : list string)
    (state : list (list string) * Z) : outcome (list (list string) * Z) :=
  match ic_list with
  | [] => Return state
  | ic :: ic_list' =>
      state' ← insert_one table_size state ic;
      insert_loop table_size ic_list' state'
  end.

(** The rate is the exact quotient; the [float] Python returns is the
    double nearest to it. *)
Definition insert_to_hash_table (ic_list : list string) (table_size : Z)
  : outcome (list (list string) * Z * QArith_base.Q) :=
  let table := replicate (Z.to_nat table_size) ([] : list string) in
  '(table, collisions) ← insert_loop table_size ic_list (table, 0%Z);
  if bool_decide (length ic_list = 0%nat) then Throw ZeroDivisionError
  else
    Return (table, collisions,
            QArith_base.Qmake collisions (Pos.of_nat (length ic_list))).

(** [str(n)] for an integer *)
Definition str_of_int (n : Z) : string := pretty n.

(** [s.zfill(width)] for a string of digits *)
Definition zero_fill (width : nat) (s : string) : string :=
  String.concat "" (replicate (width - String.length s) "0") +:+ s.

(** [f"{n:0{width}d}"]: the sign, then zeros up to the width *)
Definition format_0d (width : nat) (n : Z) : string :=
  if (n <? 0)%Z then "-" +:+ zero_fill (width - 1) (pretty (- n)%Z)
  else zero_fill width (pretty n).

(** A [datetime.date]. *)
Record date : Type := mkdate { year : Z; month : Z; day : Z }.

(** [d.strftime("%y%m%d")] *)
Definition strftime_ymd (d : date) : string :=
  format_0d 2 (year d `mod` 100)%Z +:+ format_0d 2 (month d)
  +:+ format_0d 2 (day d).

(** [generate_realistic_ic], as a function of what it draws: the date the
    library returns for [start_date + timedelta(days=delta_days)], and the
    three [randint] results. *)
Definition generate_realistic_ic (dob : date) (state_draw sequential_draw
    gender_draw : Z) : string :=
  let dob_str := strftime_ymd dob in
  let state_code := format_0d 2 state_draw in
  let sequential := format_0d 3 sequential_draw in
  dob_str +:+ state_code +:+ sequential +:+ str_of_int gender_draw.

(** What [generate_realistic_ic] can draw: a date from 1950-01-01 to
    2020-12-31, [randint(1, 99)], [randint(0, 999)], [randint(0, 9)]. *)
Definition ic_draws_in_range (dob : date) (state_draw sequential_draw
    gender_draw : Z) : Prop :=
  (1950 ≤ year dob ≤ 2020 ∧ 1 ≤ month dob ≤ 12 ∧ 1 ≤ day dob ≤ 31
   ∧ 1 ≤ state_draw ≤ 99 ∧ 0 ≤ sequential_draw ≤ 999
   ∧ 0 ≤ gender_draw ≤ 9)%Z.

(** An identity-card number as [folding_hash] accepts it. *)
Definition valid_ic (ic : string) : bool :=
  (String.length ic =? 12)%nat && str_isdigit ic.

(** The sum [folding_hash] reduces: the four blocks of three digits. *)
Definition fold_sum (ic : string) : Z :=
  (decimal_value (str_slice ic 0 3) + decimal_value (str_slice ic 3 6)
   + decimal_value (str_slice ic 6 9) + decimal_value (str_slice ic 9 12))%Z.

(** A block of three digits. *)
Definition three_digits (block : string) : Prop :=
  String.length block = 3%nat ∧ str_forall is_ascii_digit block = true.

(** The chains of a table of the given size after the given numbers have
    been inserted: chain [i] has the numbers that hash to [i], in the order
    of insertion. *)
Definition chains (table_size : Z) (ic_list : list string) : list (list string) :=
  (λ i : nat, filter (λ ic, (fold_sum ic `mod` table_size)%Z = Z.of_nat i) ic_list)
    <$> seq 0 (Z.to_nat table_size).

(** The number of chains that are not empty. *)
Definition used_slots (table : list (list string)) : nat :=
  length (filter (λ chain, chain ≠ []) table).

(** A string of the given number of digits. *)
Definition digits_of_width (width : nat) (s : string) : bool :=
  (String.length s =? width)%nat && str_forall is_ascii_digit s.

(** * Q3: the workload of the timing benchmark

    [generate_random_numbers] as a function of what it draws: [randint i]
    is the result of [random.randint(0, 10000)] in turn [i] of the outer
    loop, and [int_temp i j num] the result of [int(random.random() * num)]
    in turn [j] of the inner loop.  Nothing is assumed of either. *)

Definition workload_turn (int_temp : nat → Z → Z) (num : Z) : Z :=
  foldl (λ num j, ((num + int_temp j num) `mod` 10000)%Z) num (seq 0 1000).

Definition generate_random_numbers (randint : nat → Z)
    (int_temp : nat → nat → Z → Z) : list Z :=
  foldl (λ numbers i, numbers ++ [workload_turn (int_temp i) (randint i)])
        [] (seq 0 100).

(** * Properties *)

(** A decidable proposition about concrete data, settled by evaluating its
    decision procedure. *)
Ltac decide_by_computing :=
  match goal with
  | |- ?P => apply (bool_decide_eq_true_1 P); vm_compute; reflexivity
  end.

Example sample_app_inv : app_inv sample_app.
Proof. decide_by_computing. Qed.

Example sample_following :
  get_following "alice123" sample_app = Ok [bob].
Proof. vm_compute. reflexivity. Qed.

Example sample_followers :
  get_followers "charlie_art" sample_app = Ok [bob].
Proof. vm_compute. reflexivity. Qed.

Example abc_following :
  (λ l, list_to_set (user_id <$> l) : gset string) <$> get_following "a" abc_app
  = Ok {[ "b"; "c" ]}.
Proof. vm_compute. reflexivity. Qed.

Example abc_followers :
  get_followers "a" abc_app = Ok []
  ∧ get_followers "b" abc_app = Ok [Person_default "a" "A"].
Proof. split; vm_compute; reflexivity. Qed.

Example abc_follow_again :
  follow_user "a" "b" abc_app = Ok (false, abc_app).
Proof. vm_compute. reflexivity. Qed.

(** ** The primitives *)

Section py_prims_facts.
Context {K : Type} `{Countable K} {A : Type}.
Implicit Types (d : gmap K A) (s : gset K).

Lemma dict_contains_true k d : dict_contains k d = true ↔ is_Some (d !! k).
Proof. unfold dict_contains. apply bool_decide_eq_true. Qed.

Lemma dict_contains_false k d : dict_contains k d = false ↔ d !! k = None.
Proof.
  unfold dict_contains. rewrite bool_decide_eq_false.
  symmetry. apply eq_None_not_Some.
Qed.

Lemma dict_getitem_Ok d k v : dict_getitem d k = Ok v ↔ d !! k = Some v.
Proof. unfold dict_getitem. destruct (d !! k); split; congruence. Qed.

Lemma set_contains_true x s : set_contains x s = true ↔ x ∈ s.
Proof. apply bool_decide_eq_true. Qed.

Lemma set_contains_false x s : set_contains x s = false ↔ x ∉ s.
Proof. apply bool_decide_eq_false. Qed.

Lemma not_elem_of_removed s x : x ∉ s ∖ {[x]}.
Proof. intros [_ Hx]%elem_of_difference. by apply Hx, elem_of_singleton_2. Qed.

Lemma set_remove_Ok s x : x ∈ s → set_remove s x = Ok (s ∖ {[x]}).
Proof. intros Hx. unfold set_remove. by rewrite (proj2 (set_contains_true x s)). Qed.
End py_prims_facts.

(** ** What the graph methods return, case by case *)

Section directed_graph_facts.
Context {K : Type} `{Countable K} {V : Type}.
Implicit Types (g : DirectedGraph K V) (a b v : K).

Lemma endpoints_guard a b g :
  negb (dict_contains a (_vertices g)) || negb (dict_contains b (_vertices g))
  = negb (bool_decide (endpoints_exist a b g)).
Proof.
  unfold endpoints_exist, dict_contains.
  by rewrite bool_decide_and, negb_andb.
Qed.

Lemma add_vertex_new i d g :
  _vertices g !! i = None →
  add_vertex i d g =
    Ok (true, {| _vertices := <[i := d]> (_vertices g);
                 _adjacency_list := <[i := ∅]> (_adjacency_list g) |}).
Proof.
  intros Hi. unfold add_vertex.
  by rewrite (proj2 (dict_contains_false i (_vertices g)) Hi).
Qed.

Lemma add_vertex_dup i d g :
  is_Some (_vertices g !! i) → add_vertex i d g = Ok (false, g).
Proof.
  intros Hi. unfold add_vertex.
  by rewrite (proj2 (dict_contains_true i (_vertices g)) Hi).
Qed.

Lemma add_edge_missing a b g :
  ¬ endpoints_exist a b g → add_edge a b g = Ok (false, g).
Proof.
  intros Hn. unfold add_edge. rewrite endpoints_guard.
  by rewrite bool_decide_eq_false_2.
Qed.

Lemma add_edge_present a b g adjacents :
  endpoints_exist a b g →
  _adjacency_list g !! a = Some adjacents →
  add_edge a b g =
    if bool_decide (b ∈ adjacents) then Ok (false, g)
    else Ok (true, {| _vertices := _vertices g;
                      _adjacency_list :=
                        <[a := adjacents ∪ {[b]}]> (_adjacency_list g) |}).
Proof.
  intros He Ha. unfold add_edge. rewrite endpoints_guard.
  rewrite bool_decide_eq_true_2 by done. simpl.
  unfold dict_getitem. rewrite Ha. simpl.
  unfold set_contains. by case_bool_decide.
Qed.

Lemma add_edge_no_entry a b g :
  endpoints_exist a b g →
  _adjacency_list g !! a = None →
  add_edge a b g = Raise KeyError.
Proof.
  intros He Ha. unfold add_edge. rewrite endpoints_guard.
  rewrite bool_decide_eq_true_2 by done. simpl.
  unfold dict_getitem. by rewrite Ha.
Qed.

Lemma remove_edge_missing a b g :
  ¬ endpoints_exist a b g → remove_edge a b g = Ok (false, g).
Proof.
  intros Hn. unfold remove_edge. rewrite endpoints_guard.
  by rewrite bool_decide_eq_false_2.
Qed.

Lemma remove_edge_present a b g adjacents :
  endpoints_exist a b g →
  _adjacency_list g !! a = Some adjacents →
  remove_edge a b g =
    if bool_decide (b ∈ adjacents)
    then Ok (true, {| _vertices := _vertices g;
                      _adjacency_list :=
                        <[a := adjacents ∖ {[b]}]> (_adjacency_list g) |})
    else Ok (false, g).
Proof.
  intros He Ha. unfold remove_edge. rewrite endpoints_guard.
  rewrite bool_decide_eq_true_2 by done. simpl.
  unfold dict_getitem. rewrite Ha. simpl.
  unfold set_contains. case_bool_decide as Hb; simpl; [|done].
  by rewrite set_remove_Ok.
Qed.

Lemma remove_edge_no_entry a b g :
  endpoints_exist a b g →
  _adjacency_list g !! a = None →
  remove_edge a b g = Raise KeyError.
Proof.
  intros He Ha. unfold remove_edge. rewrite endpoints_guard.
  rewrite bool_decide_eq_true_2 by done. simpl.
  unfold dict_getitem. by rewrite Ha.
Qed.

Lemma add_edge_cases a b g : add_edge_outcome a b g (add_edge a b g).
Proof.
  destruct (decide (endpoints_exist a b g)) as [He|Hn].
  - destruct (_adjacency_list g !! a) as [adjacents|] eqn:Ha.
    + rewrite (add_edge_present _ _ _ _ He Ha).
      case_bool_decide; by econstructor.
    + rewrite (add_edge_no_entry _ _ _ He Ha). by constructor.
  - rewrite (add_edge_missing _ _ _ Hn). by constructor.
Qed.

Lemma remove_edge_cases a b g : remove_edge_outcome a b g (remove_edge a b g).
Proof.
  destruct (decide (endpoints_exist a b g)) as [He|Hn].
  - destruct (_adjacency_list g !! a) as [adjacents|] eqn:Ha.
    + rewrite (remove_edge_present _ _ _ _ He Ha).
      case_bool_decide; by econstructor.
    + rewrite (remove_edge_no_entry _ _ _ He Ha). by constructor.
  - rewrite (remove_edge_missing _ _ _ Hn). by constructor.
Qed.

(** *** The queries *)

Lemma list_outgoing_absent v g :
  _vertices g !! v = None → list_outgoing_adjacent_vertices v g = Ok [].
Proof.
  intros Hv. unfold list_outgoing_adjacent_vertices.
  by rewrite (proj2 (dict_contains_false v (_vertices g)) Hv).
Qed.

Lemma list_outgoing_present v g adjacents :
  is_Some (_vertices g !! v) →
  _adjacency_list g !! v = Some adjacents →
  list_outgoing_adjacent_vertices v g = Ok (elements adjacents).
Proof.
  intros Hv Ha. unfold list_outgoing_adjacent_vertices.
  rewrite (proj2 (dict_contains_true v (_vertices g)) Hv). simpl.
  unfold dict_getitem. by rewrite Ha.
Qed.

Lemma incoming_loop_acc (vertex : K) (items : list (K * gset K)) (acc : list K) v :
  v ∈ foldl (λ incoming '(v, adjacents),
               if set_contains vertex adjacents then incoming ++ [v]
               else incoming) acc items
  ↔ v ∈ acc ∨ ∃ adjacents, (v, adjacents) ∈ items ∧ vertex ∈ adjacents.
Proof.
  revert acc. induction items as [|[w adjacents] items IH]; intros acc; simpl.
  - split; [by left|]. intros [?|(? & Hin & _)]; [done|]. by inversion Hin.
  - rewrite IH. destruct (set_contains vertex adjacents) eqn:Hc.
    + apply set_contains_true in Hc. rewrite elem_of_app, list_elem_of_singleton.
      split.
      * intros [[?| ->]|(s & Hin & Hs)]; [by left| |].
        -- right. exists adjacents. split; [left|done].
        -- right. exists s. split; [by right|done].
      * intros [?|(s & Hin & Hs)]; [left; by left|].
        apply elem_of_cons in Hin as [[= -> ->]|Hin]; [left; by right|].
        right. by exists s.
    + apply set_contains_false in Hc. split.
      * intros [?|(s & Hin & Hs)]; [by left|].
        right. exists s. split; [by right|done].
      * intros [?|(s & Hin & Hs)]; [by left|].
        apply elem_of_cons in Hin as [[= -> ->]|Hin]; [done|].
        right. by exists s.
Qed.

Lemma elem_of_incoming_loop (vertex : K) (m : gmap K (gset K)) v :
  v ∈ incoming_loop vertex (map_to_list m)
  ↔ ∃ adjacents, m !! v = Some adjacents ∧ vertex ∈ adjacents.
Proof.
  unfold incoming_loop. rewrite incoming_loop_acc. split.
  - intros [Hin|(s & Hin & Hs)]; [by inversion Hin|].
    exists s. by rewrite <- elem_of_map_to_list.
  - intros (s & Hm & Hs). right. exists s. by rewrite elem_of_map_to_list.
Qed.

Lemma list_incoming_absent v g :
  _vertices g !! v = None → list_incoming_adjacent_vertices v g = Ok [].
Proof.
  intros Hv. unfold list_incoming_adjacent_vertices.
  by rewrite (proj2 (dict_contains_false v (_vertices g)) Hv).
Qed.

Lemma list_incoming_present v g :
  is_Some (_vertices g !! v) →
  list_incoming_adjacent_vertices v g =
    Ok (incoming_loop v (map_to_list (_adjacency_list g))).
Proof.
  intros Hv. unfold list_incoming_adjacent_vertices.
  by rewrite (proj2 (dict_contains_true v (_vertices g)) Hv).
Qed.
End directed_graph_facts.

(** ** The graph invariant *)

Section graph_invariant.
Context {K : Type} `{Countable K} {V : Type}.
Implicit Types (g : DirectedGraph K V) (a b v : K).

Lemma graph_inv_init : graph_inv (DirectedGraph_init : DirectedGraph K V).
Proof.
  split; simpl.
  - by rewrite !dom_empty_L.
  - apply map_Forall_empty.
Qed.

Lemma graph_inv_entry g a :
  graph_inv g → is_Some (_vertices g !! a) → is_Some (_adjacency_list g !! a).
Proof. intros [Hdom _] Ha. apply elem_of_dom. rewrite Hdom. by apply elem_of_dom. Qed.

Lemma graph_inv_vertex g a :
  graph_inv g → is_Some (_adjacency_list g !! a) → is_Some (_vertices g !! a).
Proof. intros [Hdom _] Ha. apply elem_of_dom. rewrite <- Hdom. by apply elem_of_dom. Qed.

Lemma graph_inv_target g a b adjacents :
  graph_inv g → _adjacency_list g !! a = Some adjacents → b ∈ adjacents →
  is_Some (_vertices g !! b).
Proof.
  intros [_ Hedges] Ha Hb. apply elem_of_dom.
  by apply (Hedges a adjacents Ha).
Qed.

(** Replacing the adjacency set of a vertex by a set of vertices keeps
    the invariant. *)
Lemma graph_inv_update g a adjacents :
  graph_inv g → is_Some (_vertices g !! a) → adjacents ⊆ dom (_vertices g) →
  graph_inv {| _vertices := _vertices g;
               _adjacency_list := <[a := adjacents]> (_adjacency_list g) |}.
Proof.
  intros [Hdom Hedges] Ha Hsub. split; simpl.
  - rewrite dom_insert_L, Hdom. apply subseteq_union_1_L.
    by apply singleton_subseteq_l, elem_of_dom.
  - by apply map_Forall_insert_2.
Qed.

Lemma add_vertex_inv i d g :
  graph_inv g → ∃ r g', add_vertex i d g = Ok (r, g') ∧ graph_inv g'.
Proof.
  intros Hinv. destruct (_vertices g !! i) as [d0|] eqn:Hi.
  - exists false, g. split; [|done]. by apply add_vertex_dup.
  - eexists _, _. split; [by apply add_vertex_new|].
    destruct Hinv as [Hdom Hedges]. split; simpl.
    + by rewrite !dom_insert_L, Hdom.
    + apply map_Forall_insert_2; [apply empty_subseteq|].
      intros k s Hk. specialize (Hedges k s Hk). simpl in Hedges.
      rewrite dom_insert_L. by apply union_subseteq_r'.
Qed.

Lemma add_edge_inv a b g :
  graph_inv g →
  ∃ r g', add_edge a b g = Ok (r, g') ∧ graph_inv g'
          ∧ _vertices g' = _vertices g.
Proof.
  intros Hinv.
  destruct (add_edge_cases a b g) as [Hn|s He Ha Hb|s [Hea Heb] Ha Hb|[Hea Heb] Ha].
  - by exists false, g.
  - by exists false, g.
  - eexists _, _. split; [done|]. split; [|done].
    apply graph_inv_update; [done..|].
    apply union_subseteq. split.
    + by apply (proj2 Hinv a).
    + by apply singleton_subseteq_l, elem_of_dom.
  - destruct (graph_inv_entry g a Hinv Hea) as [s Hs]. congruence.
Qed.

Lemma remove_edge_inv a b g :
  graph_inv g →
  ∃ r g', remove_edge a b g = Ok (r, g') ∧ graph_inv g'
          ∧ _vertices g' = _vertices g.
Proof.
  intros Hinv.
  destruct (remove_edge_cases a b g) as [Hn|s He Ha Hb|s [Hea Heb] Ha Hb|[Hea Heb] Ha].
  - by exists false, g.
  - by exists false, g.
  - eexists _, _. split; [done|]. split; [|done].
    apply graph_inv_update; [done..|].
    apply subseteq_difference_l. by apply (proj2 Hinv a s).
  - destruct (graph_inv_entry g a Hinv Hea) as [s Hs]. congruence.
Qed.

Lemma list_outgoing_inv v g :
  graph_inv g → ∃ l, list_outgoing_adjacent_vertices v g = Ok l.
Proof.
  intros Hinv. destruct (_vertices g !! v) as [d|] eqn:Hv.
  - destruct (graph_inv_entry g v Hinv) as [s Hs]; [by rewrite Hv|].
    exists (elements s). apply list_outgoing_present; [by rewrite Hv|done].
  - exists []. by apply list_outgoing_absent.
Qed.

Lemma list_incoming_total v g : ∃ l, list_incoming_adjacent_vertices v g = Ok l.
Proof.
  unfold list_incoming_adjacent_vertices.
  destruct (negb _); by eexists.
Qed.

Lemma graph_call_inv (op : graph_op K V) g :
  graph_inv g → ∃ r g', graph_call op g = Ok (r, g') ∧ graph_inv g'.
Proof.
  intros Hinv. destruct op as [i d|a b|a b|v|v|i| |i]; simpl.
  - destruct (add_vertex_inv i d g Hinv) as (r & g' & -> & Hg'). by eexists _, _.
  - destruct (add_edge_inv a b g Hinv) as (r & g' & -> & Hg' & _). by eexists _, _.
  - destruct (remove_edge_inv a b g Hinv) as (r & g' & -> & Hg' & _). by eexists _, _.
  - destruct (list_outgoing_inv v g Hinv) as (l & ->). by eexists _, _.
  - destruct (list_incoming_total v g) as (l & ->). by eexists _, _.
  - by eexists _, _.
  - by eexists _, _.
  - by eexists _, _.
Qed.

Lemma graph_run_inv (ops : list (graph_op K V)) g :
  graph_inv g → ∃ rs g', graph_run ops g = Ok (rs, g') ∧ graph_inv g'.
Proof.
  revert g. induction ops as [|op ops IH]; intros g Hinv; simpl.
  - by eexists _, _.
  - destruct (graph_call_inv op g Hinv) as (r & g1 & -> & Hg1). simpl.
    destruct (IH g1 Hg1) as (rs & g2 & -> & Hg2). by eexists _, _.
Qed.
End graph_invariant.

(** ** The facade *)

(** The comprehension never raises: its filter guards its lookup. *)
Lemma users_of_ids_omap (m : gmap string Person) (ids : list string) :
  users_of_ids m ids = Ok (omap (λ uid, m !! uid) ids).
Proof.
  induction ids as [|uid ids IH]; simpl; [done|].
  destruct (m !! uid) as [p|] eqn:Hu.
  - rewrite (proj2 (dict_contains_true uid m)) by by rewrite Hu.
    unfold dict_getitem. rewrite Hu. simpl. by rewrite IH.
  - by rewrite (proj2 (dict_contains_false uid m)) by done.
Qed.

Lemma lock_step_vertex s uid :
  lock_step s →
  (is_Some (users s !! uid) ↔ is_Some (_vertices (graph s) !! uid)).
Proof. unfold lock_step. intros Hl. by rewrite <- !elem_of_dom, Hl. Qed.

Lemma users_guard a b s :
  negb (dict_contains a (users s)) || negb (dict_contains b (users s))
  = negb (bool_decide (is_Some (users s !! a) ∧ is_Some (users s !! b))).
Proof. unfold dict_contains. by rewrite bool_decide_and, negb_andb. Qed.

Lemma add_user_dup p s :
  is_Some (users s !! user_id p) → add_user p s = Ok (false, s).
Proof.
  intros Hp. unfold add_user.
  by rewrite (proj2 (dict_contains_true (user_id p) (users s)) Hp).
Qed.

(** A new id goes into [users] first; what is returned is what
    [add_vertex] returns. *)
Lemma add_user_new p s :
  users s !! user_id p = None →
  add_user p s =
    '(added, graph') ← add_vertex (user_id p) p (graph s);
    Ok (added, {| graph := graph'; users := <[user_id p := p]> (users s) |}).
Proof.
  intros Hp. unfold add_user.
  by rewrite (proj2 (dict_contains_false (user_id p) (users s)) Hp).
Qed.

Lemma add_user_new_lock_step p s :
  lock_step s → users s !! user_id p = None →
  add_user p s =
    Ok (true,
        {| graph :=
             {| _vertices := <[user_id p := p]> (_vertices (graph s));
                _adjacency_list := <[user_id p := ∅]> (_adjacency_list (graph s)) |};
           users := <[user_id p := p]> (users s) |}).
Proof.
  intros Hl Hp. rewrite add_user_new by done.
  rewrite add_vertex_new; [done|].
  apply eq_None_not_Some. rewrite <- lock_step_vertex by done.
  by rewrite Hp; intros [? ?].
Qed.

Lemma follow_user_unknown a b s :
  ¬ (is_Some (users s !! a) ∧ is_Some (users s !! b)) →
  follow_user a b s = Ok (false, s).
Proof.
  intros Hn. unfold follow_user. rewrite users_guard.
  by rewrite bool_decide_eq_false_2.
Qed.

Lemma follow_user_known a b s :
  is_Some (users s !! a) → is_Some (users s !! b) →
  follow_user a b s =
    '(added, graph') ← add_edge a b (graph s);
    Ok (added, {| graph := graph'; users := users s |}).
Proof.
  intros Ha Hb. unfold follow_user. rewrite users_guard.
  by rewrite bool_decide_eq_true_2.
Qed.

Lemma app_eta s : {| graph := graph s; users := users s |} = s.
Proof. by destruct s. Qed.

Lemma add_user_inv p s :
  app_inv s → ∃ r s', add_user p s = Ok (r, s') ∧ app_inv s'.
Proof.
  intros [Hg Hl]. destruct (users s !! user_id p) as [q|] eqn:Hp.
  - exists false, s. split; [|done]. apply add_user_dup. by rewrite Hp.
  - eexists _, _. split; [by apply add_user_new_lock_step|].
    assert (_vertices (graph s) !! user_id p = None) as Hv.
    { apply eq_None_not_Some. rewrite <- lock_step_vertex by done.
      by rewrite Hp; intros [? ?]. }
    destruct (add_vertex_inv (user_id p) p (graph s) Hg) as (r & g' & Hadd & Hg').
    rewrite add_vertex_new in Hadd by done. injection Hadd as <- <-.
    split; [done|]. unfold lock_step in *. simpl.
    by rewrite !dom_insert_L, Hl.
Qed.

Lemma follow_user_inv a b s :
  app_inv s → ∃ r s', follow_user a b s = Ok (r, s') ∧ app_inv s'.
Proof.
  intros [Hg Hl].
  destruct (decide (is_Some (users s !! a) ∧ is_Some (users s !! b))) as [[Ha Hb]|Hn].
  - rewrite follow_user_known by done.
    destruct (add_edge_inv a b (graph s) Hg) as (r & g' & -> & Hg' & Hv).
    simpl. eexists _, _. split; [done|]. split; [done|].
    unfold lock_step in *. simpl. by rewrite Hv.
  - exists false, s. split; [by apply follow_user_unknown|done].
Qed.

Lemma unfollow_user_inv a b s :
  app_inv s → ∃ r s', unfollow_user a b s = Ok (r, s') ∧ app_inv s'.
Proof.
  intros [Hg Hl]. unfold unfollow_user.
  destruct (remove_edge_inv a b (graph s) Hg) as (r & g' & -> & Hg' & Hv).
  simpl. eexists _, _. split; [done|]. split; [done|].
  unfold lock_step in *. simpl. by rewrite Hv.
Qed.

Lemma get_following_inv uid s :
  app_inv s → ∃ l, get_following uid s = Ok l.
Proof.
  intros [Hg _]. unfold get_following.
  destruct (list_outgoing_inv uid (graph s) Hg) as (ids & ->). simpl.
  rewrite users_of_ids_omap. by eexists.
Qed.

Lemma get_followers_total uid s : ∃ l, get_followers uid s = Ok l.
Proof.
  unfold get_followers.
  destruct (list_incoming_total uid (graph s)) as (ids & ->). simpl.
  rewrite users_of_ids_omap. by eexists.
Qed.

Lemma app_call_inv op s :
  app_inv s → ∃ r s', app_call op s = Ok (r, s') ∧ app_inv s'.
Proof.
  intros Hinv. destruct op as [p|a b|a b|u|u| |u]; simpl.
  - destruct (add_user_inv p s Hinv) as (r & s' & -> & Hs'). by eexists _, _.
  - destruct (follow_user_inv a b s Hinv) as (r & s' & -> & Hs'). by eexists _, _.
  - destruct (unfollow_user_inv a b s Hinv) as (r & s' & -> & Hs'). by eexists _, _.
  - destruct (get_following_inv u s Hinv) as (l & ->). by eexists _, _.
  - destruct (get_followers_total u s) as (l & ->). by eexists _, _.
  - by eexists _, _.
  - by eexists _, _.
Qed.

Lemma app_inv_init : app_inv SocialMediaApp_init.
Proof.
  split; [apply graph_inv_init|].
  unfold lock_step. simpl. by rewrite !dom_empty_L.
Qed.

Lemma app_run_inv ops s :
  app_inv s → ∃ rs s', app_run ops s = Ok (rs, s') ∧ app_inv s'.
Proof.
  revert s. induction ops as [|op ops IH]; intros s Hinv; simpl.
  - by eexists _, _.
  - destruct (app_call_inv op s Hinv) as (r & s1 & -> & Hs1). simpl.
    destruct (IH s1 Hs1) as (rs & s2 & -> & Hs2). by eexists _, _.
Qed.

(** ** Edges *)

Section edges.
Context {K : Type} `{Countable K} {V : Type}.
Implicit Types (g : DirectedGraph K V) (a b v : K).

Lemma has_edge_true a b g :
  has_edge a b g = true
  ↔ ∃ adjacents, _adjacency_list g !! a = Some adjacents ∧ b ∈ adjacents.
Proof.
  unfold has_edge. destruct (_adjacency_list g !! a) as [s|].
  - rewrite set_contains_true. split; [by exists s|].
    by intros (s' & [= <-] & Hb).
  - split; [done|]. by intros (? & ? & _).
Qed.

Lemma add_edge_true_inv a b g g' :
  add_edge a b g = Ok (true, g') →
  ∃ adjacents,
    endpoints_exist a b g
    ∧ _adjacency_list g !! a = Some adjacents ∧ (b ∉ adjacents)
    ∧ g' = {| _vertices := _vertices g;
              _adjacency_list :=
                <[a := adjacents ∪ {[b]}]> (_adjacency_list g) |}.
Proof.
  intros Hadd. pose proof (add_edge_cases a b g) as Hc.
  rewrite Hadd in Hc. inversion Hc; subst. by eexists.
Qed.

Lemma remove_edge_true_inv a b g g' :
  remove_edge a b g = Ok (true, g') →
  ∃ adjacents,
    endpoints_exist a b g
    ∧ _adjacency_list g !! a = Some adjacents ∧ b ∈ adjacents
    ∧ g' = {| _vertices := _vertices g;
              _adjacency_list :=
                <[a := adjacents ∖ {[b]}]> (_adjacency_list g) |}.
Proof.
  intros Hrem. pose proof (remove_edge_cases a b g) as Hc.
  rewrite Hrem in Hc. inversion Hc; subst. by eexists.
Qed.

(** Membership in the two neighbour lists, in terms of [has_edge]. *)
Lemma elem_of_outgoing a b g l :
  list_outgoing_adjacent_vertices a g = Ok l →
  (b ∈ l ↔ is_Some (_vertices g !! a) ∧ has_edge a b g = true).
Proof.
  unfold list_outgoing_adjacent_vertices, has_edge, dict_getitem.
  destruct (dict_contains a (_vertices g)) eqn:Hc; simpl.
  - apply dict_contains_true in Hc.
    destruct (_adjacency_list g !! a) as [s|]; simpl; [|done].
    intros [= <-]. rewrite elem_of_elements, set_contains_true. tauto.
  - apply dict_contains_false in Hc. intros [= <-]. rewrite Hc.
    split; [by intros ?%elem_of_nil|]. by intros [[? ?] _].
Qed.

Lemma elem_of_incoming a b g l :
  list_incoming_adjacent_vertices b g = Ok l →
  (a ∈ l ↔ is_Some (_vertices g !! b) ∧ has_edge a b g = true).
Proof.
  unfold list_incoming_adjacent_vertices.
  destruct (dict_contains b (_vertices g)) eqn:Hc; simpl.
  - apply dict_contains_true in Hc. intros [= <-].
    rewrite elem_of_incoming_loop, has_edge_true. tauto.
  - apply dict_contains_false in Hc. intros [= <-]. rewrite Hc.
    split; [by intros ?%elem_of_nil|]. by intros [[? ?] _].
Qed.
End edges.

(** ** Follow and unfollow *)

Lemma follow_user_true_inv a b s s1 :
  follow_user a b s = Ok (true, s1) →
  ∃ adjacents,
    is_Some (users s !! a) ∧ is_Some (users s !! b)
    ∧ endpoints_exist a b (graph s)
    ∧ _adjacency_list (graph s) !! a = Some adjacents ∧ (b ∉ adjacents)
    ∧ s1 = {| graph :=
                {| _vertices := _vertices (graph s);
                   _adjacency_list :=
                     <[a := adjacents ∪ {[b]}]> (_adjacency_list (graph s)) |};
              users := users s |}.
Proof.
  intros Hf.
  destruct (decide (is_Some (users s !! a) ∧ is_Some (users s !! b))) as [[Ha Hb]|Hn].
  - rewrite follow_user_known in Hf by done.
    destruct (add_edge a b (graph s)) as [[r g']|e] eqn:Hadd; simpl in Hf; [|done].
    injection Hf as -> <-.
    apply add_edge_true_inv in Hadd as (adjacents & He & Hl & Hnb & ->).
    by exists adjacents.
  - by rewrite follow_user_unknown in Hf.
Qed.

Lemma unfollow_user_true_inv a b s s1 :
  unfollow_user a b s = Ok (true, s1) →
  ∃ adjacents,
    endpoints_exist a b (graph s)
    ∧ _adjacency_list (graph s) !! a = Some adjacents ∧ b ∈ adjacents
    ∧ s1 = {| graph :=
                {| _vertices := _vertices (graph s);
                   _adjacency_list :=
                     <[a := adjacents ∖ {[b]}]> (_adjacency_list (graph s)) |};
              users := users s |}.
Proof.
  unfold unfollow_user. intros Hu.
  destruct (remove_edge a b (graph s)) as [[r g']|e] eqn:Hrem; simpl in Hu; [|done].
  injection Hu as -> <-.
  apply remove_edge_true_inv in Hrem as (adjacents & He & Hl & Hb & ->).
  by exists adjacents.
Qed.

(** C1: when [follow_user(a, b)] returns [True] for two users of the
    facade, [b] is listed by [list_outgoing_adjacent_vertices(a)] and [a] by
    [list_incoming_adjacent_vertices(b)]; the [unfollow_user(a, b)] that
    follows returns [True], and afterwards neither list has the other id. *)
Theorem follow_unfollow_membership (a b : string) (s s1 : SocialMediaApp) :
  is_Some (users s !! a) → is_Some (users s !! b) →
  follow_user a b s = Ok (true, s1) →
  (∃ outgoing incoming,
      list_outgoing_adjacent_vertices a (graph s1) = Ok outgoing
      ∧ b ∈ outgoing
      ∧ list_incoming_adjacent_vertices b (graph s1) = Ok incoming
      ∧ a ∈ incoming)
  ∧ ∃ s2 outgoing incoming,
      unfollow_user a b s1 = Ok (true, s2)
      ∧ list_outgoing_adjacent_vertices a (graph s2) = Ok outgoing
      ∧ (b ∉ outgoing)
      ∧ list_incoming_adjacent_vertices b (graph s2) = Ok incoming
      ∧ a ∉ incoming.
Proof.
  intros _ _ Hf.
  apply follow_user_true_inv in Hf
    as (adjacents & _ & _ & [Hva Hvb] & Hl & Hnb & ->).
  split.
  - eexists _, _. simpl.
    split; [by apply list_outgoing_present, lookup_insert_eq|].
    split; [by rewrite elem_of_elements; apply elem_of_union_r, elem_of_singleton_2|].
    split; [by apply list_incoming_present|].
    apply elem_of_incoming_loop. exists (adjacents ∪ {[b]}).
    split; [apply lookup_insert_eq|by apply elem_of_union_r, elem_of_singleton_2].
  - eexists _, _, _. unfold unfollow_user. simpl.
    erewrite remove_edge_present;
      [|by split|apply lookup_insert_eq].
    rewrite bool_decide_eq_true_2
      by by apply elem_of_union_r, elem_of_singleton_2.
    simpl.
    split; [done|]. simpl.
    split; [by apply list_outgoing_present, lookup_insert_eq|].
    split; [rewrite elem_of_elements; apply not_elem_of_removed|].
    split; [by apply list_incoming_present|].
    rewrite elem_of_incoming_loop. intros (s' & Hs' & Hb). simpl in Hs'.
    rewrite lookup_insert_eq in Hs'. injection Hs' as <-.
    by apply not_elem_of_removed in Hb.
Qed.

Lemma follow_unfollow_membership_witness :
  ∃ s1, follow_user "charlie_art" "alice123" sample_app = Ok (true, s1)
    ∧ ∃ s2, unfollow_user "charlie_art" "alice123" s1 = Ok (true, s2).
Proof.
  eexists. split; [vm_compute; reflexivity|].
  edestruct (follow_unfollow_membership "charlie_art" "alice123" sample_app)
    as [_ (s2 & _ & _ & Hu & _)];
    [vm_compute; eauto|vm_compute; eauto|vm_compute; reflexivity|].
  exists s2. exact Hu.
Defined.

(** C7: in a state whose graph satisfies its invariant, if the edge
    [(a, b)] is not recorded (whether or not [a] and [b] are known ids),
    [unfollow_user(a, b)] returns [False] and the state it leaves, vertices,
    adjacency and users, is the state it found. *)
Theorem unfollow_absent_edge (a b : string) (s : SocialMediaApp) :
  graph_inv (graph s) →
  has_edge a b (graph s) = false →
  unfollow_user a b s = Ok (false, s).
Proof.
  intros Hinv Hedge. unfold unfollow_user.
  destruct (remove_edge_cases a b (graph s))
    as [Hn|adjacents He Ha Hb|adjacents He Ha Hb|[Hea Heb] Ha]; simpl.
  - by rewrite app_eta.
  - by rewrite app_eta.
  - assert (has_edge a b (graph s) = true) as Ht; [|congruence].
    apply has_edge_true. by exists adjacents.
  - destruct (graph_inv_entry _ a Hinv Hea) as [adjacents Hs]. congruence.
Qed.

Lemma unfollow_absent_edge_witness :
  unfollow_user "charlie_art" "alice123" sample_app = Ok (false, sample_app)
  ∧ unfollow_user "nobody" "alice123" sample_app = Ok (false, sample_app)
  ∧ unfollow_user "alice123" "nobody" sample_app = Ok (false, sample_app).
Proof.
  split; [|split]; apply unfollow_absent_edge;
    solve [decide_by_computing | vm_compute; reflexivity].
Defined.

(** C8: for a user [a] of the facade who does not follow themself,
    [follow_user(a, a)] returns [True] and records the edge [(a, a)]:
    [a] is then among its own outgoing and its own incoming neighbours. *)
Theorem follow_self (a : string) (s : SocialMediaApp) :
  app_inv s →
  is_Some (users s !! a) →
  has_edge a a (graph s) = false →
  ∃ s' outgoing incoming,
    follow_user a a s = Ok (true, s')
    ∧ has_edge a a (graph s') = true
    ∧ list_outgoing_adjacent_vertices a (graph s') = Ok outgoing
    ∧ a ∈ outgoing
    ∧ list_incoming_adjacent_vertices a (graph s') = Ok incoming
    ∧ a ∈ incoming.
Proof.
  intros [Hg Hl] Ha Hedge.
  assert (is_Some (_vertices (graph s) !! a)) as Hv by by apply lock_step_vertex.
  destruct (graph_inv_entry _ a Hg Hv) as [adjacents Hadj].
  assert (a ∉ adjacents) as Hna.
  { intros Hin. assert (has_edge a a (graph s) = true) as Ht; [|congruence].
    apply has_edge_true. by exists adjacents. }
  rewrite follow_user_known by done.
  rewrite (add_edge_present a a (graph s) adjacents) by done.
  rewrite bool_decide_eq_false_2 by done. simpl.
  eexists _, _, _. split; [done|]. simpl.
  assert (has_edge a a
            {| _vertices := _vertices (graph s);
               _adjacency_list :=
                 <[a := adjacents ∪ {[a]}]> (_adjacency_list (graph s)) |}
          = true) as Hself.
  { apply has_edge_true. exists (adjacents ∪ {[a]}). simpl.
    split; [apply lookup_insert_eq|by apply elem_of_union_r, elem_of_singleton_2]. }
  split; [done|].
  split; [by apply list_outgoing_present, lookup_insert_eq|].
  split; [by rewrite elem_of_elements; apply elem_of_union_r, elem_of_singleton_2|].
  split; [by apply list_incoming_present|].
  apply elem_of_incoming_loop. by apply has_edge_true in Hself.
Qed.

Lemma follow_self_witness :
  ∃ s', follow_user "bob_dev" "bob_dev" sample_app = Ok (true, s')
        ∧ has_edge "bob_dev" "bob_dev" (graph s') = true.
Proof.
  destruct (follow_self "bob_dev" sample_app)
    as (s' & _ & _ & Hf & He & _).
  - decide_by_computing.
  - vm_compute. eauto.
  - vm_compute. reflexivity.
  - by exists s'.
Defined.

(** C10: when [unfollow_user(a, b)] returns [True], the vertices and the
    users are what they were, the adjacency set of every vertex other than
    [a] is what it was, and the adjacency set of [a] is the old one without
    [b]: it had [b], and its members are now the old members other than
    [b]. *)
Theorem unfollow_frame (a b : string) (s s' : SocialMediaApp) :
  unfollow_user a b s = Ok (true, s') →
  _vertices (graph s') = _vertices (graph s)
  ∧ users s' = users s
  ∧ (∀ v, v ≠ a →
       _adjacency_list (graph s') !! v = _adjacency_list (graph s) !! v)
  ∧ ∃ adjacents,
      _adjacency_list (graph s) !! a = Some adjacents
      ∧ b ∈ adjacents
      ∧ _adjacency_list (graph s') !! a = Some (adjacents ∖ {[b]})
      ∧ ∀ c, c ∈ adjacents ∖ {[b]} ↔ c ∈ adjacents ∧ c ≠ b.
Proof.
  intros (adjacents & _ & Ha & Hb & ->)%unfollow_user_true_inv. simpl.
  split; [done|]. split; [done|]. split.
  - intros v Hv. by rewrite lookup_insert_ne.
  - exists adjacents. split; [done|]. split; [done|].
    split; [apply lookup_insert_eq|].
    intros c. rewrite elem_of_difference, not_elem_of_singleton. done.
Qed.

Lemma unfollow_frame_witness :
  ∃ s', unfollow_user "alice123" "bob_dev" sample_app = Ok (true, s')
        ∧ users s' = users sample_app
        ∧ _adjacency_list (graph s') !! "bob_dev"
          = _adjacency_list (graph sample_app) !! "bob_dev".
Proof.
  eexists. split; [vm_compute; reflexivity|].
  edestruct (unfollow_frame "alice123" "bob_dev" sample_app)
    as (_ & Hu & Hother & _); [vm_compute; reflexivity|].
  split; [exact Hu|]. by apply Hother.
Defined.

(** ** Invariants of the graph and of the facade *)

Section graph_claims.
Context {K : Type} `{Countable K} {V : Type}.
Implicit Types (g : DirectedGraph K V) (a b v : K).

Lemma add_edge_vertices a b g r g' :
  add_edge a b g = Ok (r, g') → _vertices g' = _vertices g.
Proof.
  intros Hadd. pose proof (add_edge_cases a b g) as Hc.
  rewrite Hadd in Hc. by inversion Hc; subst.
Qed.

Lemma remove_edge_vertices a b g r g' :
  remove_edge a b g = Ok (r, g') → _vertices g' = _vertices g.
Proof.
  intros Hrem. pose proof (remove_edge_cases a b g) as Hc.
  rewrite Hrem in Hc. by inversion Hc; subst.
Qed.

(** C2: the empty graph satisfies the invariant (the adjacency mapping
    and the vertices mapping have the same keys, and every id in an
    adjacency set is a vertex); from a graph that satisfies it, every
    method returns without raising and leaves a graph that satisfies it;
    [add_vertex] of a new id records the payload and an empty adjacency
    set; [add_edge] with a missing endpoint returns [False] and leaves the
    graph as it was. *)
Theorem graph_invariant_preserved :
  graph_inv (DirectedGraph_init : DirectedGraph K V)
  ∧ (∀ (op : graph_op K V) g,
       graph_inv g → ∃ r g', graph_call op g = Ok (r, g') ∧ graph_inv g')
  ∧ (∀ i d g,
       _vertices g !! i = None →
       ∃ g', add_vertex i d g = Ok (true, g')
             ∧ _vertices g' !! i = Some d
             ∧ _adjacency_list g' !! i = Some ∅)
  ∧ (∀ a b g,
       _vertices g !! a = None ∨ _vertices g !! b = None →
       add_edge a b g = Ok (false, g)).
Proof.
  split; [apply graph_inv_init|].
  split; [apply graph_call_inv|].
  split.
  - intros i d g Hi. eexists. split; [by apply add_vertex_new|].
    simpl. by rewrite !lookup_insert_eq.
  - intros a b g Hmiss. apply add_edge_missing.
    intros [[? Ha] [? Hb]]. destruct Hmiss; congruence.
Qed.

Lemma graph_call_contract (op : graph_op K V) g :
  graph_inv g →
  ∃ r g', graph_call op g = Ok (r, g') ∧ graph_contract g op r.
Proof.
  intros Hinv. destruct op as [i d|a b|a b|v|v|i| |i]; simpl.
  - destruct (add_vertex_inv i d g Hinv) as (r & g' & -> & _).
    eexists _, _. split; [done|]. by eexists.
  - destruct (add_edge_inv a b g Hinv) as (r & g' & -> & _).
    eexists _, _. split; [done|]. by eexists.
  - destruct (remove_edge_inv a b g Hinv) as (r & g' & -> & _).
    eexists _, _. split; [done|]. by eexists.
  - destruct (list_outgoing_inv v g Hinv) as (l & Hl). rewrite Hl.
    eexists _, _. split; [done|]. eexists. split; [done|].
    intros Hv%dict_contains_false.
    rewrite list_outgoing_absent in Hl by done. congruence.
  - destruct (list_incoming_total v g) as (l & Hl). rewrite Hl.
    eexists _, _. split; [done|]. eexists. split; [done|].
    intros Hv%dict_contains_false.
    rewrite list_incoming_absent in Hl by done. congruence.
  - eexists _, _. split; [done|]. eexists. split; [done|].
    by intros Hv%dict_contains_false.
  - eexists _, _. split; [done|]. by eexists.
  - eexists _, _. split; [done|]. by eexists.
Qed.
End graph_claims.

Lemma graph_invariant_preserved_witness :
  ∃ r g', graph_call (GAddEdge "alice123" "charlie_art") (graph sample_app)
          = Ok (r, g')
          ∧ graph_inv g'.
Proof.
  apply (proj1 (proj2 graph_invariant_preserved)).
  decide_by_computing.
Defined.

(** Lock-step alone is kept by every call that returns. *)
Lemma app_call_lock_step op s r s' :
  lock_step s → app_call op s = Ok (r, s') → lock_step s'.
Proof.
  intros Hl. destruct op as [p|a b|a b|u|u| |u]; simpl.
  - destruct (users s !! user_id p) as [q|] eqn:Hp.
    + rewrite add_user_dup by by rewrite Hp. by intros [= _ <-].
    + rewrite add_user_new_lock_step by done. intros [= _ <-].
      unfold lock_step in *. simpl. by rewrite !dom_insert_L, Hl.
  - unfold follow_user. destruct (_ || _); simpl; [by intros [= _ <-]|].
    destruct (add_edge a b (graph s)) as [[r0 g']|e] eqn:Hadd; simpl; [|done].
    intros [= _ <-]. apply add_edge_vertices in Hadd.
    unfold lock_step in *. simpl. by rewrite Hadd.
  - unfold unfollow_user.
    destruct (remove_edge a b (graph s)) as [[r0 g']|e] eqn:Hrem; simpl; [|done].
    intros [= _ <-]. apply remove_edge_vertices in Hrem.
    unfold lock_step in *. simpl. by rewrite Hrem.
  - destruct (get_following u s); simpl; [|done]. by intros [= _ <-].
  - destruct (get_followers u s); simpl; [|done]. by intros [= _ <-].
  - by intros [= _ <-].
  - by intros [= _ <-].
Qed.

(** C3: the fresh facade is in lock-step (an id is a key of [users]
    exactly when it is a vertex of the graph); every call that returns
    keeps lock-step; from a state in lock-step whose graph satisfies its
    invariant every call returns, into such a state; and in lock-step
    [add_user] of a new id returns [True] with the profile stored under
    its id both in [users] and as vertex payload, while [add_user] of a
    known id returns [False] and leaves the facade as it was. *)
Theorem lock_step_preserved :
  lock_step SocialMediaApp_init
  ∧ (∀ op s r s', lock_step s → app_call op s = Ok (r, s') → lock_step s')
  ∧ (∀ op s, app_inv s → ∃ r s', app_call op s = Ok (r, s') ∧ app_inv s')
  ∧ (∀ p s,
       lock_step s →
       (users s !! user_id p = None →
        ∃ s', add_user p s = Ok (true, s')
              ∧ users s' = <[user_id p := p]> (users s)
              ∧ _vertices (graph s') = <[user_id p := p]> (_vertices (graph s))
              ∧ lock_step s')
       ∧ (is_Some (users s !! user_id p) → add_user p s = Ok (false, s))).
Proof.
  split; [apply app_inv_init|].
  split; [apply app_call_lock_step|].
  split; [apply app_call_inv|].
  intros p s Hl. split.
  - intros Hp. eexists. split; [by apply add_user_new_lock_step|].
    simpl. split; [done|]. split; [done|].
    unfold lock_step in *. simpl. by rewrite !dom_insert_L, Hl.
  - apply add_user_dup.
Qed.

Lemma lock_step_preserved_witness :
  (∃ r s', app_call (AddUser alice) sample_app = Ok (r, s') ∧ app_inv s')
  ∧ add_user alice sample_app = Ok (false, sample_app).
Proof.
  destruct lock_step_preserved as (_ & _ & Hcall & Hadd). split.
  - apply Hcall. decide_by_computing.
  - apply Hadd; [decide_by_computing|vm_compute; eauto].
Defined.

(** ** Adding twice *)

(** C4: with an id that is not yet a vertex, the first [add_vertex]
    returns [True] and the second, whatever payload it is given, returns
    [False] and changes nothing, so that the payload read back is the first
    one.  Likewise for [add_user] on a facade in lock-step and two profiles
    with the same new id: [True], then [False] with nothing changed, and
    [get_user] and the vertex payload are the first profile. *)
Theorem add_twice_first_wins :
  (∀ (vertex_id : string) (first second : Person) (g : DirectedGraph string Person),
     _vertices g !! vertex_id = None →
     ∃ g1, add_vertex vertex_id first g = Ok (true, g1)
           ∧ add_vertex vertex_id second g1 = Ok (false, g1)
           ∧ get_vertex_data vertex_id g1 = Some first)
  ∧ (∀ (first second : Person) (s : SocialMediaApp),
       lock_step s →
       users s !! user_id first = None →
       user_id second = user_id first →
       ∃ s1, add_user first s = Ok (true, s1)
             ∧ add_user second s1 = Ok (false, s1)
             ∧ get_user (user_id first) s1 = Some first
             ∧ get_vertex_data (user_id first) (graph s1) = Some first).
Proof.
  split.
  - intros i first second g Hi. eexists.
    split; [by apply add_vertex_new|].
    split.
    + apply add_vertex_dup. simpl. by rewrite lookup_insert_eq.
    + unfold get_vertex_data, dict_get. simpl. apply lookup_insert_eq.
  - intros first second s Hl Hnew Hid. eexists.
    split; [by apply add_user_new_lock_step|].
    split.
    + apply add_user_dup. simpl. by rewrite Hid, lookup_insert_eq.
    + unfold get_user, get_vertex_data, dict_get. simpl.
      by rewrite !lookup_insert_eq.
Qed.

Lemma add_twice_first_wins_witness :
  ∃ s1, add_user alice SocialMediaApp_init = Ok (true, s1)
        ∧ add_user alice_again s1 = Ok (false, s1)
        ∧ get_user "alice123" s1 = Some alice.
Proof.
  destruct (proj2 add_twice_first_wins alice alice_again SocialMediaApp_init)
    as (s1 & H1 & H2 & H3 & _).
  - decide_by_computing.
  - reflexivity.
  - reflexivity.
  - by exists s1.
Defined.

(** ** Nothing raises *)

Lemma app_call_contract op s :
  app_inv s → ∃ r s', app_call op s = Ok (r, s') ∧ app_contract s op r.
Proof.
  intros Hinv. pose proof Hinv as [Hg Hl].
  assert (∀ uid, users s !! uid = None → _vertices (graph s) !! uid = None) as Hun.
  { intros uid Hu. apply eq_None_not_Some.
    rewrite <- lock_step_vertex by done. by rewrite Hu; intros [? ?]. }
  destruct op as [p|a b|a b|u|u| |u]; simpl.
  - destruct (add_user_inv p s Hinv) as (r & s' & -> & _).
    eexists _, _. split; [done|]. by eexists.
  - destruct (follow_user_inv a b s Hinv) as (r & s' & -> & _).
    eexists _, _. split; [done|]. by eexists.
  - destruct (unfollow_user_inv a b s Hinv) as (r & s' & -> & _).
    eexists _, _. split; [done|]. by eexists.
  - destruct (get_following_inv u s Hinv) as (l & Hl'). rewrite Hl'.
    eexists _, _. split; [done|]. eexists. split; [done|].
    intros Hu%Hun. unfold get_following in Hl'.
    rewrite list_outgoing_absent in Hl' by done. simpl in Hl'. congruence.
  - destruct (get_followers_total u s) as (l & Hl'). rewrite Hl'.
    eexists _, _. split; [done|]. eexists. split; [done|].
    intros Hu%Hun. unfold get_followers in Hl'.
    rewrite list_incoming_absent in Hl' by done. simpl in Hl'. congruence.
  - eexists _, _. split; [done|]. by eexists.
  - eexists _, _. split; [done|]. eexists. split; [done|]. done.
Qed.

(** C5: after any sequence of calls on a fresh graph, and after any
    sequence of calls on a fresh facade, no call has raised and no further
    call raises, whatever ids it is given: the methods that write return a
    boolean, the neighbour, following and follower lists of an unknown id
    are empty, and [get_vertex_data] and [get_user] of an unknown id are
    [None]. *)
Theorem no_call_raises {K : Type} `{Countable K} {V : Type} :
  (∀ history : list (graph_op K V),
     ∃ rs g,
       graph_run history DirectedGraph_init = Ok (rs, g)
       ∧ ∀ op, ∃ r g', graph_call op g = Ok (r, g') ∧ graph_contract g op r)
  ∧ (∀ history : list app_op,
       ∃ rs s,
         app_run history SocialMediaApp_init = Ok (rs, s)
         ∧ ∀ op, ∃ r s', app_call op s = Ok (r, s') ∧ app_contract s op r).
Proof.
  split.
  - intros history.
    destruct (graph_run_inv history DirectedGraph_init graph_inv_init)
      as (rs & g & Hrun & Hg).
    exists rs, g. split; [done|]. intros op. by apply graph_call_contract.
  - intros history.
    destruct (app_run_inv history SocialMediaApp_init app_inv_init)
      as (rs & s & Hrun & Hs).
    exists rs, s. split; [done|]. intros op. by apply app_call_contract.
Qed.

(** ** Reading a profile back *)

(** No call removes or replaces a stored profile. *)
Lemma app_call_users_kept op s r s' uid p :
  app_call op s = Ok (r, s') → users s !! uid = Some p → users s' !! uid = Some p.
Proof.
  intros Hcall Hu. destruct op as [q|a b|a b|u|u| |u]; simpl in Hcall.
  - destruct (users s !! user_id q) as [q0|] eqn:Hq.
    + rewrite add_user_dup in Hcall by by rewrite Hq.
      by injection Hcall as _ <-.
    + rewrite add_user_new in Hcall by done.
      destruct (add_vertex (user_id q) q (graph s)) as [[r0 g']|e];
        simpl in Hcall; [|done].
      injection Hcall as _ <-. simpl.
      rewrite lookup_insert_ne; [done|]. intros Heq. congruence.
  - unfold follow_user in Hcall.
    destruct (_ || _); simpl in Hcall; [by injection Hcall as _ <-|].
    destruct (add_edge a b (graph s)) as [[r0 g']|e]; simpl in Hcall; [|done].
    by injection Hcall as _ <-.
  - unfold unfollow_user in Hcall.
    destruct (remove_edge a b (graph s)) as [[r0 g']|e]; simpl in Hcall; [|done].
    by injection Hcall as _ <-.
  - destruct (get_following u s); simpl in Hcall; [|done].
    by injection Hcall as _ <-.
  - destruct (get_followers u s); simpl in Hcall; [|done].
    by injection Hcall as _ <-.
  - by injection Hcall as _ <-.
  - by injection Hcall as _ <-.
Qed.

Lemma app_run_users_kept ops s rs s' uid p :
  app_run ops s = Ok (rs, s') → users s !! uid = Some p → users s' !! uid = Some p.
Proof.
  revert s rs. induction ops as [|op ops IH]; intros s rs; simpl.
  - by intros [= _ <-].
  - destruct (app_call op s) as [[r s1]|e] eqn:Hcall; simpl; [|done].
    destruct (app_run ops s1) as [[rs1 s2]|e] eqn:Hrun; simpl; [|done].
    intros [= _ <-] Hu. eapply IH; [done|]. by eapply app_call_users_kept.
Qed.

Lemma add_user_true_stored p s s1 :
  add_user p s = Ok (true, s1) → users s1 !! user_id p = Some p.
Proof.
  destruct (users s !! user_id p) as [q|] eqn:Hp.
  - rewrite add_user_dup by by rewrite Hp. done.
  - rewrite add_user_new by done.
    destruct (add_vertex (user_id p) p (graph s)) as [[r0 g']|e]; simpl; [|done].
    intros [= _ <-]. simpl. apply lookup_insert_eq.
Qed.

(** C6: once [add_user] has returned [True] for a profile built from
    given fields, then after any further calls that return, [get_user] of
    its id finds a profile whose [get_full_info()] has exactly the seven
    keys, each with the field given at creation, whatever the privacy is,
    and the privacy as "public" or "private". *)
Theorem full_info_round_trip
    (uid nm gd bio : string) (pr : Privacy) (ag : option Z) (loc : string)
    (s s1 s2 : SocialMediaApp) (ops : list app_op) (rs : list app_ret) :
  add_user (Person_init uid nm gd bio pr ag loc) s = Ok (true, s1) →
  app_run ops s1 = Ok (rs, s2) →
  ∃ person,
    get_user uid s2 = Some person
    ∧ get_full_info person !! "user_id" = Some (PyStr uid)
    ∧ get_full_info person !! "name" = Some (PyStr nm)
    ∧ get_full_info person !! "gender" = Some (PyStr gd)
    ∧ get_full_info person !! "biography" = Some (PyStr bio)
    ∧ get_full_info person !! "privacy"
      = Some (PyStr (match pr with PUBLIC => "public" | PRIVATE => "private" end))
    ∧ get_full_info person !! "age"
      = Some (match ag with Some n => PyInt n | None => PyNone end)
    ∧ get_full_info person !! "location" = Some (PyStr loc)
    ∧ dom (get_full_info person)
      = list_to_set ["user_id"; "name"; "gender"; "biography"; "privacy";
                     "age"; "location"].
Proof.
  intros Hadd Hrun. exists (Person_init uid nm gd bio pr ag loc).
  split.
  - unfold get_user, dict_get. eapply app_run_users_kept; [done|].
    by apply add_user_true_stored in Hadd.
  - unfold get_full_info. simpl.
    repeat split; try (by destruct pr); by destruct ag.
Qed.

Lemma full_info_round_trip_witness :
  ∃ person,
    get_user "charlie_art"
      (state_after [AddUser charlie; AddUser alice;
                    FollowUser "alice123" "charlie_art"])
    = Some person
    ∧ get_full_info person !! "privacy" = Some (PyStr "private")
    ∧ get_full_info person !! "age" = Some (PyInt 25).
Proof.
  edestruct (full_info_round_trip "charlie_art" "Charlie Brown" "Male"
               "Digital artist and designer 🎨" PRIVATE (Some 25%Z) "Los Angeles"
               SocialMediaApp_init)
    as (person & Hget & _ & _ & _ & _ & Hpr & Hag & _);
    [vm_compute; reflexivity| |].
  - instantiate (3 := [AddUser alice; FollowUser "alice123" "charlie_art"]).
    vm_compute. reflexivity.
  - exists person. split; [exact Hget|]. by split.
Defined.

(** ** Privacy is not consulted *)

Section payload_parametricity.
Context {K : Type} `{Countable K} {V W : Type} (f : V → W).
Implicit Types (g : DirectedGraph K V) (a b v : K).

Lemma dict_contains_fmap k (d : gmap K V) :
  dict_contains k (f <$> d) = dict_contains k d.
Proof.
  unfold dict_contains. apply bool_decide_ext.
  by rewrite lookup_fmap, fmap_is_Some.
Qed.

Lemma add_vertex_map i d g :
  add_vertex i (f d) (graph_map f g)
  = prod_map id (graph_map f) <$> add_vertex i d g.
Proof.
  unfold add_vertex. simpl. rewrite dict_contains_fmap.
  destruct (dict_contains i (_vertices g)); simpl; [done|].
  unfold graph_map. simpl. by rewrite fmap_insert.
Qed.

Lemma add_edge_map a b g :
  add_edge a b (graph_map f g)
  = prod_map id (graph_map f) <$> add_edge a b g.
Proof.
  unfold add_edge. simpl. rewrite !dict_contains_fmap.
  destruct (_ || _); simpl; [done|].
  destruct (dict_getitem (_adjacency_list g) a) as [adjacents|e]; simpl; [|done].
  by destruct (set_contains b adjacents).
Qed.

Lemma remove_edge_map a b g :
  remove_edge a b (graph_map f g)
  = prod_map id (graph_map f) <$> remove_edge a b g.
Proof.
  unfold remove_edge. simpl. rewrite !dict_contains_fmap.
  destruct (_ || _); simpl; [done|].
  destruct (dict_getitem (_adjacency_list g) a) as [adjacents|e]; simpl; [|done].
  destruct (set_contains b adjacents); simpl; [|done].
  by destruct (set_remove adjacents b).
Qed.

Lemma list_outgoing_map v g :
  list_outgoing_adjacent_vertices v (graph_map f g)
  = list_outgoing_adjacent_vertices v g.
Proof.
  unfold list_outgoing_adjacent_vertices. simpl.
  by rewrite dict_contains_fmap.
Qed.

Lemma list_incoming_map v g :
  list_incoming_adjacent_vertices v (graph_map f g)
  = list_incoming_adjacent_vertices v g.
Proof.
  unfold list_incoming_adjacent_vertices. simpl.
  by rewrite dict_contains_fmap.
Qed.
End payload_parametricity.

Lemma same_but_privacy_fields p q :
  same_but_privacy p q
  ↔ user_id p = user_id q ∧ name p = name q ∧ gender p = gender q
    ∧ biography p = biography q ∧ age p = age q ∧ location p = location q.
Proof.
  unfold same_but_privacy, erase_privacy. destruct p, q; simpl. split.
  - by intros [= -> -> -> -> -> ->].
  - by intros (-> & -> & -> & -> & -> & ->).
Qed.

Lemma users_of_ids_erase (m : gmap string Person) (ids : list string) :
  omap (λ uid, (erase_privacy <$> m) !! uid) ids
  = erase_privacy <$> omap (λ uid, m !! uid) ids.
Proof.
  induction ids as [|uid ids IH]; csimpl; [done|].
  rewrite lookup_fmap, IH. by destruct (m !! uid).
Qed.

Lemma dict_values_erase (m : gmap string Person) :
  erase_privacy <$> dict_values m ≡ₚ dict_values (erase_privacy <$> m).
Proof.
  unfold dict_values. rewrite map_to_list_fmap.
  rewrite <- !list_fmap_compose. done.
Qed.

Lemma app_call_erase op s :
  outcome_erased ret_erased (app_call op s) (app_call (op_erase op) (app_erase s)).
Proof.
  destruct op as [p|a b|a b|u|u| |u]; simpl.
  - unfold add_user. simpl. rewrite dict_contains_fmap.
    destruct (dict_contains (user_id p) (users s)); simpl; [done|].
    replace (add_vertex (user_id p) (erase_privacy p)
               (graph_map erase_privacy (graph s)))
      with (prod_map id (graph_map erase_privacy)
              <$> add_vertex (user_id p) p (graph s))
      by (symmetry; apply (add_vertex_map erase_privacy)).
    destruct (add_vertex (user_id p) p (graph s)) as [[r g']|e]; simpl; [|done].
    split; [done|]. unfold app_erase. simpl. by rewrite fmap_insert.
  - unfold follow_user. simpl. rewrite !dict_contains_fmap.
    destruct (_ || _); simpl; [done|].
    rewrite add_edge_map.
    by destruct (add_edge a b (graph s)) as [[r g']|e].
  - unfold unfollow_user. simpl. rewrite remove_edge_map.
    by destruct (remove_edge a b (graph s)) as [[r g']|e].
  - unfold get_following. simpl. rewrite list_outgoing_map.
    destruct (list_outgoing_adjacent_vertices u (graph s)) as [ids|e]; simpl; [|done].
    rewrite !users_of_ids_omap. simpl. split; [|done].
    by rewrite users_of_ids_erase.
  - unfold get_followers. simpl. rewrite list_incoming_map.
    destruct (list_incoming_adjacent_vertices u (graph s)) as [ids|e]; simpl; [|done].
    rewrite !users_of_ids_omap. simpl. split; [|done].
    by rewrite users_of_ids_erase.
  - split; [|done]. apply dict_values_erase.
  - split; [|done]. unfold get_user, dict_get. simpl. by rewrite lookup_fmap.
Qed.

Lemma app_run_erase ops s :
  outcome_erased (Forall2 ret_erased)
    (app_run ops s) (app_run (op_erase <$> ops) (app_erase s)).
Proof.
  revert s. induction ops as [|op ops IH]; intros s; csimpl; [done|].
  pose proof (app_call_erase op s) as Hcall.
  destruct (app_call op s) as [[r s1]|e],
    (app_call (op_erase op) (app_erase s)) as [[r' s1']|e']; csimpl in *;
    try done.
  destruct Hcall as [Hr ->]. specialize (IH s1).
  destruct (app_run ops s1) as [[rs s2]|e],
    (app_run (op_erase <$> ops) (app_erase s1)) as [[rs' s2']|e']; csimpl in *;
    try done.
  destruct IH as [Hrs ->]. split; [by constructor|done].
Qed.

Lemma ret_erased_similar r1 r2 r :
  ret_erased r1 r → ret_erased r2 r → ret_similar r1 r2.
Proof.
  destruct r1 as [b1|l1|o1], r2 as [b2|l2|o2], r as [b|l|o]; simpl; try done.
  - congruence.
  - intros H1 H2.
    assert (erase_privacy <$> l1 ≡ₚ erase_privacy <$> l2) as Hl
      by by rewrite H1, H2.
    split; [|done].
    apply (fmap_Permutation user_id) in Hl.
    by rewrite <- !list_fmap_compose in Hl.
  - congruence.
Qed.

Lemma Forall2_ret_erased_similar rs1 rs2 rs :
  Forall2 ret_erased rs1 rs → Forall2 ret_erased rs2 rs →
  Forall2 ret_similar rs1 rs2.
Proof.
  intros H1. revert rs2. induction H1 as [|r1 r rs1 rs Hr H1 IH]; intros rs2 H2.
  - inversion H2; subst. constructor.
  - inversion H2 as [|r2 ? rs2' ? Hr2 H2']; subst. constructor.
    + by eapply ret_erased_similar.
    + by apply IH.
Qed.

Lemma same_calls_erase ops1 ops2 :
  Forall2 same_call_but_privacy ops1 ops2 → op_erase <$> ops1 = op_erase <$> ops2.
Proof.
  induction 1 as [|o1 o2 ops1 ops2 Ho _ IH]; csimpl; [done|].
  unfold same_call_but_privacy in Ho. by rewrite Ho, IH.
Qed.

(** C9: two runs on a fresh facade whose calls are the same, one by
    one, except for the privacy of the profiles given to [add_user], both
    complete, and call by call they return the same booleans, lists of
    profiles with the same ids (the same profiles, privacy apart, in some
    order) and, from [get_user], the same profile, privacy apart. *)
Theorem privacy_not_consulted (ops1 ops2 : list app_op) :
  Forall2 same_call_but_privacy ops1 ops2 →
  ∃ rs1 s1 rs2 s2,
    app_run ops1 SocialMediaApp_init = Ok (rs1, s1)
    ∧ app_run ops2 SocialMediaApp_init = Ok (rs2, s2)
    ∧ Forall2 ret_similar rs1 rs2.
Proof.
  intros Hops%same_calls_erase.
  destruct (app_run_inv ops1 _ app_inv_init) as (rs1 & s1 & Hrun1 & _).
  destruct (app_run_inv ops2 _ app_inv_init) as (rs2 & s2 & Hrun2 & _).
  exists rs1, s1, rs2, s2. split; [done|]. split; [done|].
  pose proof (app_run_erase ops1 SocialMediaApp_init) as H1.
  pose proof (app_run_erase ops2 SocialMediaApp_init) as H2.
  rewrite Hrun1 in H1. rewrite Hrun2, <- Hops in H2.
  destruct (app_run (op_erase <$> ops1) (app_erase SocialMediaApp_init))
    as [[rs s]|e]; simpl in *; [|done].
  destruct H1 as [H1 _], H2 as [H2 _].
  by eapply Forall2_ret_erased_similar.
Qed.

Lemma privacy_not_consulted_witness :
  ∃ rs1 s1 rs2 s2,
    app_run [AddUser charlie; AddUser bob; FollowUser "bob_dev" "charlie_art";
             GetFollowing "bob_dev"; GetUser "charlie_art"; GetAllUsers]
      SocialMediaApp_init = Ok (rs1, s1)
    ∧ app_run [AddUser charlie_public; AddUser bob;
               FollowUser "bob_dev" "charlie_art";
               GetFollowing "bob_dev"; GetUser "charlie_art"; GetAllUsers]
        SocialMediaApp_init = Ok (rs2, s2)
    ∧ Forall2 ret_similar rs1 rs2.
Proof.
  apply privacy_not_consulted.
  repeat constructor.
Defined.

(** * Further properties of Q2.py *)

(** ** Profiles are filed under their own id *)

Lemma follow_user_same_users a b s r s' :
  follow_user a b s = Ok (r, s') →
  users s' = users s ∧ _vertices (graph s') = _vertices (graph s).
Proof.
  unfold follow_user. destruct (_ || _); simpl; [by intros [= _ <-]|].
  destruct (add_edge a b (graph s)) as [[r0 g']|e] eqn:Hadd; simpl; [|done].
  intros [= _ <-]. simpl. split; [done|]. by eapply add_edge_vertices.
Qed.

Lemma unfollow_user_same_users a b s r s' :
  unfollow_user a b s = Ok (r, s') →
  users s' = users s ∧ _vertices (graph s') = _vertices (graph s).
Proof.
  unfold unfollow_user.
  destruct (remove_edge a b (graph s)) as [[r0 g']|e] eqn:Hrem; simpl; [|done].
  intros [= _ <-]. simpl. split; [done|]. by eapply remove_edge_vertices.
Qed.

Lemma app_wf_init : app_wf SocialMediaApp_init.
Proof.
  split; [apply app_inv_init|]. split; [done|]. apply map_Forall_empty.
Qed.

Lemma app_call_wf op s :
  app_wf s → ∃ r s', app_call op s = Ok (r, s') ∧ app_wf s'.
Proof.
  intros (Hinv & Hsame & Hkeys).
  destruct (app_call_inv op s Hinv) as (r & s' & Hcall & Hinv').
  exists r, s'. split; [done|]. split; [done|].
  destruct op as [p|a b|a b|u|u| |u]; simpl in Hcall.
  - destruct (users s !! user_id p) as [q|] eqn:Hp.
    + rewrite add_user_dup in Hcall by by rewrite Hp.
      by injection Hcall as _ <-.
    + rewrite add_user_new_lock_step in Hcall by (done || apply Hinv).
      injection Hcall as _ <-. simpl. split; [by rewrite Hsame|].
      by apply map_Forall_insert_2.
  - destruct (follow_user a b s) as [[r0 s0]|e] eqn:Hf; simpl in Hcall; [|done].
    injection Hcall as _ <-.
    apply follow_user_same_users in Hf as [-> ->]. done.
  - destruct (unfollow_user a b s) as [[r0 s0]|e] eqn:Hf; simpl in Hcall; [|done].
    injection Hcall as _ <-.
    apply unfollow_user_same_users in Hf as [-> ->]. done.
  - destruct (get_following u s); simpl in Hcall; [|done].
    by injection Hcall as _ <-.
  - destruct (get_followers u s); simpl in Hcall; [|done].
    by injection Hcall as _ <-.
  - by injection Hcall as _ <-.
  - by injection Hcall as _ <-.
Qed.

Lemma app_run_wf ops s :
  app_wf s → ∃ rs s', app_run ops s = Ok (rs, s') ∧ app_wf s'.
Proof.
  revert s. induction ops as [|op ops IH]; intros s Hwf; simpl.
  - by eexists _, _.
  - destruct (app_call_wf op s Hwf) as (r & s1 & -> & Hs1). simpl.
    destruct (IH s1 Hs1) as (rs & s2 & -> & Hs2). by eexists _, _.
Qed.

(** X1: after any sequence of calls on a fresh facade, the vertex
    payloads are the user profiles, and the profile [get_user] finds for an
    id has that id and is the payload [get_vertex_data] finds for it. *)
Theorem profiles_filed_under_own_id (history : list app_op) :
  ∃ rs s,
    app_run history SocialMediaApp_init = Ok (rs, s)
    ∧ _vertices (graph s) = users s
    ∧ ∀ uid person,
        get_user uid s = Some person →
        user_id person = uid ∧ get_vertex_data uid (graph s) = Some person.
Proof.
  destruct (app_run_wf history _ app_wf_init) as (rs & s & Hrun & _ & Hsame & Hkeys).
  exists rs, s. split; [done|]. split; [done|].
  intros uid person Hget. unfold get_user, get_vertex_data, dict_get in *.
  split; [by apply (Hkeys uid person)|]. by rewrite Hsame.
Qed.

(** ** Following *)

Lemma follow_blocked_false a b s :
  follow_blocked a b s → follow_user a b s = Ok (false, s).
Proof.
  intros Hblocked.
  destruct (decide (is_Some (users s !! a) ∧ is_Some (users s !! b))) as [[Ha Hb]|Hn];
    [|by apply follow_user_unknown].
  rewrite follow_user_known by done.
  destruct (decide (endpoints_exist a b (graph s))) as [He|Hne].
  - destruct Hblocked as [Hn|[Hne|Hedge]]; [by destruct Hn|done|].
    apply has_edge_true in Hedge as (adjacents & Hl & Hin).
    rewrite (add_edge_present a b (graph s) adjacents) by done.
    rewrite bool_decide_eq_true_2 by done. simpl. by rewrite app_eta.
  - rewrite add_edge_missing by done. simpl. by rewrite app_eta.
Qed.

Lemma follow_user_blocks a b s r s1 :
  follow_user a b s = Ok (r, s1) → follow_blocked a b s1.
Proof.
  intros Hf.
  destruct (decide (is_Some (users s !! a) ∧ is_Some (users s !! b))) as [[Ha Hb]|Hn].
  - rewrite follow_user_known in Hf by done.
    pose proof (add_edge_cases a b (graph s)) as Hc.
    destruct (add_edge a b (graph s)) as [[r0 g']|e] eqn:Hadd; simpl in Hf; [|done].
    injection Hf as -> <-. simpl.
    inversion Hc as [Hn|adjacents He Hl Hin|adjacents He Hl Hin|]; subst.
    + right. by left.
    + right. right. apply has_edge_true. by exists adjacents.
    + right. right. apply has_edge_true. exists (adjacents ∪ {[b]}). simpl.
      split; [apply lookup_insert_eq|].
      by apply elem_of_union_r, elem_of_singleton_2.
  - rewrite follow_user_unknown in Hf by done. injection Hf as <- <-. by left.
Qed.

(** X2: whatever a [follow_user(a, b)] returned, the same call made
    again returns [False] and changes nothing. *)
Theorem follow_user_again (a b : string) (s s1 : SocialMediaApp) (r : bool) :
  follow_user a b s = Ok (r, s1) →
  follow_user a b s1 = Ok (false, s1).
Proof. intros Hf. by eapply follow_blocked_false, follow_user_blocks. Qed.

Lemma follow_user_again_witness :
  follow_user "alice123" "charlie_art"
    (state_after [AddUser alice; AddUser charlie;
                  FollowUser "alice123" "charlie_art"])
  = Ok (false, state_after [AddUser alice; AddUser charlie;
                            FollowUser "alice123" "charlie_art"]).
Proof.
  apply (follow_user_again "alice123" "charlie_art"
           (state_after [AddUser alice; AddUser charlie]) _ true).
  vm_compute. reflexivity.
Defined.

Lemma added_then_removed {K : Type} `{Countable K} (adjacents : gset K) (b : K) :
  b ∉ adjacents → (adjacents ∪ {[b]}) ∖ {[b]} = adjacents.
Proof.
  intros Hb. apply set_eq. intros x.
  rewrite elem_of_difference, elem_of_union, elem_of_singleton.
  split; [tauto|]. intros Hx. split; [by left|]. by intros ->.
Qed.

Lemma removed_then_added {K : Type} `{Countable K} (adjacents : gset K) (b : K) :
  b ∈ adjacents → adjacents ∖ {[b]} ∪ {[b]} = adjacents.
Proof.
  intros Hb. apply set_eq. intros x.
  rewrite elem_of_union, elem_of_difference, elem_of_singleton.
  split; [by intros [[? _]| ->]|].
  intros Hx. destruct (decide (x = b)); [by right|by left].
Qed.

(** X3: a follow that succeeds is undone exactly by the unfollow: when
    [follow_user(a, b)] returns [True], [unfollow_user(a, b)] then returns
    [True] and the facade is again the one before the follow. *)
Theorem follow_then_unfollow_restores (a b : string) (s s1 : SocialMediaApp) :
  follow_user a b s = Ok (true, s1) →
  unfollow_user a b s1 = Ok (true, s).
Proof.
  intros (adjacents & _ & _ & He & Hl & Hnb & ->)%follow_user_true_inv.
  unfold unfollow_user. simpl.
  erewrite remove_edge_present; [|done|apply lookup_insert_eq].
  rewrite bool_decide_eq_true_2 by by apply elem_of_union_r, elem_of_singleton_2.
  simpl. rewrite insert_insert_eq, added_then_removed by done.
  rewrite insert_id by done. by destruct s as [[? ?] ?].
Qed.

Lemma follow_then_unfollow_restores_witness :
  ∃ s1, follow_user "charlie_art" "alice123" sample_app = Ok (true, s1)
        ∧ unfollow_user "charlie_art" "alice123" s1 = Ok (true, sample_app).
Proof.
  eexists. split; [vm_compute; reflexivity|].
  apply follow_then_unfollow_restores. vm_compute. reflexivity.
Defined.

(** X4: an unfollow that succeeds is undone exactly by the follow, in a
    facade in lock-step: when [unfollow_user(a, b)] returns [True],
    [follow_user(a, b)] then returns [True] and the facade is again the one
    before the unfollow. *)
Theorem unfollow_then_follow_restores (a b : string) (s s1 : SocialMediaApp) :
  lock_step s →
  unfollow_user a b s = Ok (true, s1) →
  follow_user a b s1 = Ok (true, s).
Proof.
  intros Hlock (adjacents & He & Hl & Hb & ->)%unfollow_user_true_inv.
  destruct He as [Hva Hvb].
  rewrite follow_user_known by (simpl; by apply lock_step_vertex).
  simpl. erewrite add_edge_present; [|done|apply lookup_insert_eq].
  rewrite bool_decide_eq_false_2 by apply not_elem_of_removed.
  simpl. rewrite insert_insert_eq, removed_then_added by done.
  rewrite insert_id by done. by destruct s as [[? ?] ?].
Qed.

Lemma unfollow_then_follow_restores_witness :
  ∃ s1, unfollow_user "alice123" "bob_dev" sample_app = Ok (true, s1)
        ∧ follow_user "alice123" "bob_dev" s1 = Ok (true, sample_app).
Proof.
  eexists. split; [vm_compute; reflexivity|].
  apply unfollow_then_follow_restores; [|vm_compute; reflexivity].
  decide_by_computing.
Defined.

(** X5: a follow that succeeds records the one edge [(a, b)] and nothing
    else: users and vertices are untouched and every other ordered pair,
    [(b, a)] among them when [a] and [b] differ, is an edge afterwards
    exactly when it was one before. *)
Theorem follow_records_one_edge (a b : string) (s s' : SocialMediaApp) :
  follow_user a b s = Ok (true, s') →
  users s' = users s
  ∧ _vertices (graph s') = _vertices (graph s)
  ∧ has_edge a b (graph s) = false
  ∧ has_edge a b (graph s') = true
  ∧ ∀ c d, (c, d) ≠ (a, b) →
           has_edge c d (graph s') = has_edge c d (graph s).
Proof.
  intros (adjacents & _ & _ & He & Hl & Hnb & ->)%follow_user_true_inv.
  simpl. split; [done|]. split; [done|].
  unfold has_edge. simpl. rewrite Hl, lookup_insert_eq.
  split; [by apply set_contains_false|].
  split; [by apply set_contains_true, elem_of_union_r, elem_of_singleton_2|].
  intros c d Hne. destruct (decide (c = a)) as [->|Hc].
  - rewrite lookup_insert_eq, Hl. unfold set_contains.
    apply bool_decide_ext. rewrite elem_of_union, elem_of_singleton.
    split; [|by left]. intros [?| ->]; [done|]. by destruct Hne.
  - by rewrite lookup_insert_ne.
Qed.

Lemma follow_records_one_edge_witness :
  has_edge "bob_dev" "charlie_art"
    (graph (state_after [AddUser alice; AddUser bob; AddUser charlie;
                         FollowUser "alice123" "bob_dev";
                         FollowUser "bob_dev" "charlie_art";
                         FollowUser "charlie_art" "bob_dev"]))
  = has_edge "bob_dev" "charlie_art" (graph sample_app).
Proof.
  destruct (follow_records_one_edge "charlie_art" "bob_dev" sample_app
              (state_after [AddUser alice; AddUser bob; AddUser charlie;
                            FollowUser "alice123" "bob_dev";
                            FollowUser "bob_dev" "charlie_art";
                            FollowUser "charlie_art" "bob_dev"]))
    as (_ & _ & _ & _ & Hother); [vm_compute; reflexivity|].
  apply Hother. intros Heq. discriminate Heq.
Defined.

(** ** Lists of profiles *)

Lemma users_of_ids_all_known (m : gmap string Person) (ids : list string) :
  map_Forall (λ uid person, user_id person = uid) m →
  Forall (λ uid, is_Some (m !! uid)) ids →
  user_id <$> omap (λ uid, m !! uid) ids = ids.
Proof.
  intros Hkeys. induction 1 as [|uid ids [p Hp] _ IH]; csimpl; [done|].
  rewrite Hp. csimpl. rewrite IH. f_equal. by apply (Hkeys uid p).
Qed.

Lemma outgoing_ids_known s u ids :
  app_inv s →
  list_outgoing_adjacent_vertices u (graph s) = Ok ids →
  Forall (λ uid, is_Some (users s !! uid)) ids.
Proof.
  intros [Hg Hl] Hout. apply Forall_forall. intros uid Hin.
  apply (elem_of_outgoing u uid _ _ Hout) in Hin as [_ Hedge].
  apply has_edge_true in Hedge as (adjacents & Ha & Hb).
  apply lock_step_vertex; [done|]. by eapply graph_inv_target.
Qed.

Lemma incoming_ids_known s u ids :
  app_inv s →
  list_incoming_adjacent_vertices u (graph s) = Ok ids →
  Forall (λ uid, is_Some (users s !! uid)) ids.
Proof.
  intros [Hg Hl] Hinc. apply Forall_forall. intros uid Hin.
  apply (elem_of_incoming uid u _ _ Hinc) in Hin as [_ Hedge].
  apply has_edge_true in Hedge as (adjacents & Ha & Hb).
  apply lock_step_vertex; [done|]. apply graph_inv_vertex; [done|]. by eexists.
Qed.

Lemma profiles_of_neighbours (u : string) (s : SocialMediaApp) :
  app_wf s →
  ∃ following_ids follower_ids following followers,
    list_outgoing_adjacent_vertices u (graph s) = Ok following_ids
    ∧ get_following u s = Ok following
    ∧ user_id <$> following = following_ids
    ∧ list_incoming_adjacent_vertices u (graph s) = Ok follower_ids
    ∧ get_followers u s = Ok followers
    ∧ user_id <$> followers = follower_ids.
Proof.
  intros (Hinv & _ & Hkeys).
  destruct (list_outgoing_inv u (graph s) (proj1 Hinv)) as (out & Hout).
  destruct (list_incoming_total u (graph s)) as (inc & Hinc).
  exists out, inc. eexists _, _.
  unfold get_following, get_followers. rewrite Hout, Hinc. simpl.
  rewrite !users_of_ids_omap.
  split; [done|]. split; [done|].
  split; [by eapply users_of_ids_all_known, outgoing_ids_known|].
  split; [done|]. split; [done|].
  by eapply users_of_ids_all_known, incoming_ids_known.
Qed.

(** X6: in a well-formed facade the filter of [get_following] and of
    [get_followers] never drops an id: the ids of the profiles returned are,
    one for one and in the same order, the ids the graph lists. *)
Theorem following_resolves_every_id (u : string) (s : SocialMediaApp) :
  app_wf s →
  ∃ following_ids follower_ids following followers,
    list_outgoing_adjacent_vertices u (graph s) = Ok following_ids
    ∧ get_following u s = Ok following
    ∧ user_id <$> following = following_ids
    ∧ list_incoming_adjacent_vertices u (graph s) = Ok follower_ids
    ∧ get_followers u s = Ok followers
    ∧ user_id <$> followers = follower_ids.
Proof. apply profiles_of_neighbours. Qed.

Lemma following_resolves_every_id_witness :
  ∃ following,
    get_following "alice123" sample_app = Ok following
    ∧ user_id <$> following = ["bob_dev"].
Proof.
  destruct (following_resolves_every_id "alice123" sample_app)
    as (ids & _ & following & _ & Hout & Hget & Hids & _).
  - decide_by_computing.
  - exists following. split; [done|]. rewrite Hids.
    assert (Ok ids = Ok ["bob_dev"]) as [= ->]; [|done].
    rewrite <- Hout. vm_compute. reflexivity.
Defined.

(** X7: in a well-formed facade, [b] is among the ids [get_following(a)]
    returns exactly when [a] is among the ids [get_followers(b)] returns,
    and exactly when the edge [(a, b)] is recorded. *)
Theorem following_followers_dual (a b : string) (s : SocialMediaApp) :
  app_wf s →
  ∃ following followers,
    get_following a s = Ok following
    ∧ get_followers b s = Ok followers
    ∧ (b ∈ user_id <$> following ↔ has_edge a b (graph s) = true)
    ∧ (a ∈ user_id <$> followers ↔ has_edge a b (graph s) = true).
Proof.
  intros Hwf.
  destruct (profiles_of_neighbours a s Hwf)
    as (out & _ & following & _ & Hout & Hfol & Hfolids & _).
  destruct (profiles_of_neighbours b s Hwf)
    as (_ & inc & _ & followers & _ & _ & _ & Hinc & Hfrs & Hfrsids).
  exists following, followers. split; [done|]. split; [done|].
  rewrite Hfolids, Hfrsids.
  rewrite (elem_of_outgoing a b _ _ Hout), (elem_of_incoming a b _ _ Hinc).
  destruct Hwf as ([Hg Hl] & _ & _).
  split; (split; [tauto|]); intros Hedge; (split; [|done]);
    apply has_edge_true in Hedge as (adjacents & Ha & Hb).
  - apply graph_inv_vertex; [done|]. by eexists.
  - by eapply graph_inv_target.
Qed.

Lemma following_followers_dual_witness :
  ∃ followers,
    get_followers "charlie_art" sample_app = Ok followers
    ∧ "bob_dev" ∈ user_id <$> followers.
Proof.
  destruct (following_followers_dual "bob_dev" "charlie_art" sample_app)
    as (_ & followers & _ & Hget & _ & Hiff).
  - decide_by_computing.
  - exists followers. split; [done|]. apply Hiff. vm_compute. reflexivity.
Defined.

(** X8: a user just added follows nobody and has no followers: on a
    facade that satisfies its invariants, after [add_user] of a new id
    [get_following] and [get_followers] of that id are empty. *)
Theorem new_user_is_isolated (p : Person) (s : SocialMediaApp) :
  app_inv s →
  users s !! user_id p = None →
  ∃ s', add_user p s = Ok (true, s')
        ∧ get_following (user_id p) s' = Ok []
        ∧ get_followers (user_id p) s' = Ok [].
Proof.
  intros [Hg Hl] Hnew. eexists. split; [by apply add_user_new_lock_step|].
  assert (_vertices (graph s) !! user_id p = None) as Hv.
  { apply eq_None_not_Some. rewrite <- lock_step_vertex by done.
    by rewrite Hnew; intros [? ?]. }
  unfold get_following, get_followers. simpl.
  erewrite list_outgoing_present;
    [|simpl; by rewrite lookup_insert_eq|simpl; apply lookup_insert_eq].
  rewrite elements_empty. split; [done|].
  rewrite list_incoming_present by (simpl; by rewrite lookup_insert_eq).
  simpl.
  replace (incoming_loop (user_id p)
             (map_to_list (<[user_id p := ∅]> (_adjacency_list (graph s)))))
    with (@nil string); [done|].
  symmetry. apply elem_of_nil_inv. intros v.
  rewrite elem_of_incoming_loop. intros (adjacents & Ha & Hin).
  destruct (decide (user_id p = v)) as [<-|Hne].
  - rewrite lookup_insert_eq in Ha. injection Ha as <-.
    by apply not_elem_of_empty in Hin.
  - rewrite lookup_insert_ne in Ha by done.
    destruct (graph_inv_target _ _ _ _ Hg Ha Hin) as [d Hd]. congruence.
Qed.

Lemma new_user_is_isolated_witness :
  ∃ s', add_user diana sample_app = Ok (true, s')
        ∧ get_following "diana_fit" s' = Ok []
        ∧ get_followers "diana_fit" s' = Ok [].
Proof.
  apply (new_user_is_isolated diana sample_app).
  - decide_by_computing.
  - vm_compute. reflexivity.
Defined.

(** ** Listing vertices and users *)



(** X10: no sequence of graph calls removes a vertex or replaces its
    payload: a payload present before is the payload read afterwards. *)
Theorem vertex_payload_is_kept (ops : list (graph_op string Person))
    (g g' : DirectedGraph string Person) (rs : list (graph_ret string Person))
    (i : string) (d : Person) :
  graph_run ops g = Ok (rs, g') →
  get_vertex_data i g = Some d →
  get_vertex_data i g' = Some d.
Proof.
  unfold get_vertex_data, dict_get.
  revert g rs. induction ops as [|op ops IH]; intros g rs; simpl.
  - by intros [= _ <-].
  - destruct (graph_call op g) as [[r g1]|e] eqn:Hcall; simpl; [|done].
    destruct (graph_run ops g1) as [[rs1 g2]|e] eqn:Hrun; simpl; [|done].
    intros [= _ <-] Hd. eapply IH; [done|].
    destruct op as [j dj|a b|a b|v|v|j| |j]; simpl in Hcall.
    + destruct (_vertices g !! j) as [d0|] eqn:Hj.
      * rewrite add_vertex_dup in Hcall by by rewrite Hj.
        by injection Hcall as _ <-.
      * rewrite add_vertex_new in Hcall by done. injection Hcall as _ <-.
        simpl. rewrite lookup_insert_ne; [done|]. intros ->. congruence.
    + destruct (add_edge a b g) as [[r0 g0]|e] eqn:Hadd; simpl in Hcall; [|done].
      injection Hcall as _ <-. by rewrite (add_edge_vertices _ _ _ _ _ Hadd).
    + destruct (remove_edge a b g) as [[r0 g0]|e] eqn:Hrem; simpl in Hcall; [|done].
      injection Hcall as _ <-. by rewrite (remove_edge_vertices _ _ _ _ _ Hrem).
    + destruct (list_outgoing_adjacent_vertices v g); simpl in Hcall; [|done].
      by injection Hcall as _ <-.
    + destruct (list_incoming_adjacent_vertices v g); simpl in Hcall; [|done].
      by injection Hcall as _ <-.
    + by injection Hcall as _ <-.
    + by injection Hcall as _ <-.
    + by injection Hcall as _ <-.
Qed.

Lemma vertex_payload_is_kept_witness :
  get_vertex_data "alice123"
    (graph (state_after [AddUser alice; AddUser alice_again; AddUser bob]))
  = Some alice.
Proof.
  apply (vertex_payload_is_kept
           [GAddVertex "alice123" alice_again; GAddVertex "bob_dev" bob;
            GAddEdge "alice123" "bob_dev"; GRemoveEdge "alice123" "bob_dev"]
           (graph (state_after [AddUser alice]))
           (graph (state_after [AddUser alice; AddUser alice_again; AddUser bob]))
           [GBool false; GBool true; GBool true; GBool true]).
  - vm_compute. reflexivity.
  - vm_compute. reflexivity.
Defined.

(** ** The two views of a profile *)

(** X11: the public view has the keys "user_id" and "name" and nothing
    else, and is part of the full view: each of its entries is an entry of
    [get_full_info()]. *)
Theorem public_info_within_full_info (p : Person) :
  dom (get_public_info p) = {[ "user_id"; "name" ]}
  ∧ get_public_info p ⊆ get_full_info p.
Proof.
  split; [done|]. apply map_subseteq_spec. intros k v.
  unfold get_public_info, get_full_info. simpl.
  destruct (decide (k = "user_id")) as [->|Hid].
  { by rewrite !lookup_insert_eq. }
  rewrite lookup_insert_ne by done.
  destruct (decide (k = "name")) as [->|Hname].
  { rewrite lookup_insert_eq. intros <-.
    rewrite lookup_insert_ne by done. by rewrite lookup_insert_eq. }
  by rewrite lookup_insert_ne, lookup_empty by done.
Qed.

(** ** The set-up of [main] *)

Lemma follow_user_false_same a b s s' :
  follow_user a b s = Ok (false, s') → s' = s.
Proof.
  intros Hf.
  destruct (decide (is_Some (users s !! a) ∧ is_Some (users s !! b))) as [[Ha Hb]|Hn].
  - rewrite follow_user_known in Hf by done.
    pose proof (add_edge_cases a b (graph s)) as Hc.
    destruct (add_edge a b (graph s)) as [[r0 g']|e] eqn:Hadd; simpl in Hf; [|done].
    injection Hf as -> <-.
    inversion Hc; subst; by rewrite app_eta.
  - rewrite follow_user_unknown in Hf by done. by injection Hf as <-.
Qed.

(** A follow keeps the edges there are. *)
Lemma follow_user_keeps_edges c d s r s' a b :
  follow_user c d s = Ok (r, s') →
  has_edge a b (graph s) = true → has_edge a b (graph s') = true.
Proof.
  destruct r; [|by intros ->%follow_user_false_same].
  intros (adjacents & _ & _ & _ & Hl & _ & ->)%follow_user_true_inv.
  rewrite !has_edge_true. simpl. intros (adj_a & Ha & Hb).
  destruct (decide (c = a)) as [->|Hne].
  - exists (adjacents ∪ {[d]}). rewrite lookup_insert_eq. split; [done|].
    apply elem_of_union_l. congruence.
  - exists adj_a. by rewrite lookup_insert_ne.
Qed.

Lemma follow_user_keeps_blocked c d s r s' a b :
  follow_user c d s = Ok (r, s') →
  follow_blocked a b s → follow_blocked a b s'.
Proof.
  intros Hf Hblocked. pose proof (follow_user_same_users _ _ _ _ _ Hf) as [Hu Hv].
  unfold follow_blocked, endpoints_exist in *. rewrite Hu, Hv.
  destruct Hblocked as [?|[?|Hedge]]; [by left|right; by left|].
  right. right. by eapply follow_user_keeps_edges.
Qed.

Lemma follow_each_blocks connections s s' :
  follow_each connections s = Ok s' →
  (∀ a b, follow_blocked a b s → follow_blocked a b s')
  ∧ Forall (λ c, follow_blocked c.1 c.2 s') connections.
Proof.
  revert s. induction connections as [|[a b] connections IH]; intros s; simpl.
  - intros [= <-]. by split.
  - destruct (follow_user a b s) as [[r s1]|e] eqn:Hf; simpl; [|done].
    intros Hrest. destruct (IH s1 Hrest) as [Hkeep Hall]. split.
    + intros a' b' Hb. by eapply Hkeep, follow_user_keeps_blocked.
    + constructor; [|done]. simpl. by eapply Hkeep, follow_user_blocks.
Qed.

Lemma follow_each_all_blocked connections s :
  Forall (λ c, follow_blocked c.1 c.2 s) connections →
  follow_each connections s = Ok s.
Proof.
  induction 1 as [|[a b] connections Hb _ IH]; simpl; [done|].
  by rewrite follow_blocked_false.
Qed.

Lemma follow_each_inv connections s :
  app_inv s →
  ∃ s', follow_each connections s = Ok s'
        ∧ app_inv s'
        ∧ users s' = users s
        ∧ _vertices (graph s') = _vertices (graph s)
        ∧ ∀ a b, has_edge a b (graph s) = true → has_edge a b (graph s') = true.
Proof.
  revert s. induction connections as [|[a b] connections IH]; intros s Hinv; simpl.
  - by exists s.
  - destruct (follow_user_inv a b s Hinv) as (r & s1 & Hf & Hinv1).
    rewrite Hf. simpl.
    destruct (IH s1 Hinv1) as (s' & -> & Hinv' & Hu & Hv & He).
    pose proof (follow_user_same_users _ _ _ _ _ Hf) as [Hu1 Hv1].
    exists s'. split; [done|]. split; [done|].
    split; [congruence|]. split; [congruence|].
    intros a' b' Hedge. by eapply He, follow_user_keeps_edges.
Qed.

(** X12: [setup_connections] on a facade that satisfies its invariants
    raises nothing and leaves such a facade, with the same users and
    vertices and with every edge there was. *)
Theorem setup_connections_only_adds_edges (s : SocialMediaApp) :
  app_inv s →
  ∃ s', setup_connections s = Ok s'
        ∧ app_inv s'
        ∧ users s' = users s
        ∧ _vertices (graph s') = _vertices (graph s)
        ∧ ∀ a b, has_edge a b (graph s) = true → has_edge a b (graph s') = true.
Proof. apply follow_each_inv. Qed.

Lemma setup_connections_only_adds_edges_witness :
  ∃ s', setup_connections sample_app = Ok s' ∧ users s' = users sample_app.
Proof.
  destruct (setup_connections_only_adds_edges sample_app)
    as (s' & Hrun & _ & Hu & _); [decide_by_computing|].
  exists s'. split; [exact Hrun|exact Hu].
Defined.

(** X13: [setup_connections] run a second time changes nothing: on the
    facade a run of it has left, it returns that facade. *)
Theorem setup_connections_twice (s s' : SocialMediaApp) :
  setup_connections s = Ok s' →
  setup_connections s' = Ok s'.
Proof.
  unfold setup_connections. intros Hrun.
  apply follow_each_all_blocked. by eapply follow_each_blocks.
Qed.

Lemma setup_connections_twice_witness :
  setup_connections with_sample_users = Ok after_main_setup
  ∧ setup_connections after_main_setup = Ok after_main_setup.
Proof.
  split; [vm_compute; reflexivity|].
  apply (setup_connections_twice with_sample_users).
  vm_compute. reflexivity.
Defined.

(** * Properties of the folding hash *)

(** ** Strings *)

Lemma str_length_app (a b : string) :
  String.length (a +:+ b) = (String.length a + String.length b)%nat.
Proof. induction a as [|c a IH]; simpl; [done|]. by rewrite IH. Qed.

Lemma str_forall_app f (a b : string) :
  str_forall f (a +:+ b) = str_forall f a && str_forall f b.
Proof.
  induction a as [|c a IH]; simpl; [done|]. by rewrite IH, andb_assoc.
Qed.

Lemma str_drop_app (a b : string) : str_drop (String.length a) (a +:+ b) = b.
Proof. induction a as [|c a IH]; simpl; [by destruct b|done]. Qed.

Lemma str_take_app (a b : string) : str_take (String.length a) (a +:+ b) = a.
Proof. induction a as [|c a IH]; simpl; [done|]. by rewrite IH. Qed.

Lemma str_drop_drop n m (s : string) :
  str_drop n (str_drop m s) = str_drop (m + n) s.
Proof.
  revert s. induction m as [|m IH]; intros s; simpl; [done|].
  destruct s as [|c s]; [by destruct n|]. apply IH.
Qed.

Lemma str_forall_drop f n (s : string) :
  str_forall f s = true → str_forall f (str_drop n s) = true.
Proof.
  revert s. induction n as [|n IH]; intros [|c s]; simpl; try done.
  intros [_ Hs]%andb_prop. by apply IH.
Qed.

Lemma str_forall_take f n (s : string) :
  str_forall f s = true → str_forall f (str_take n s) = true.
Proof.
  revert s. induction n as [|n IH]; intros [|c s]; simpl; try done.
  intros [-> Hs]%andb_prop. by apply IH.
Qed.

Lemma str_length_drop n (s : string) :
  String.length (str_drop n s) = (String.length s - n)%nat.
Proof.
  revert s. induction n as [|n IH]; intros [|c s]; simpl; done.
Qed.

Lemma str_length_take n (s : string) :
  String.length (str_take n s) = (n `min` String.length s)%nat.
Proof.
  revert s. induction n as [|n IH]; intros [|c s]; simpl; try done.
  by rewrite IH.
Qed.

Lemma str_isdigit_forall (s : string) :
  str_isdigit s = true
  ↔ String.length s ≠ 0%nat ∧ str_forall is_ascii_digit s = true.
Proof.
  destruct s as [|c s]; simpl; [split; [done|by intros [? _]]|].
  split; [by intros ->|by intros [_ ->]].
Qed.

Lemma str_isdigit_slice (s : string) (i : nat) :
  str_forall is_ascii_digit s = true →
  (i + 3 ≤ String.length s)%nat →
  str_isdigit (str_slice s i (i + 3)) = true.
Proof.
  intros Hs Hlen. apply str_isdigit_forall. unfold str_slice. split.
  - rewrite str_length_take, str_length_drop. lia.
  - by apply str_forall_take, str_forall_drop.
Qed.

(** ** The value of a string of digits *)

Lemma decimal_value_bounds (s : string) :
  str_forall is_ascii_digit s = true →
  (0 ≤ decimal_value s < 10 ^ Z.of_nat (String.length s))%Z.
Proof.
  unfold decimal_value.
  assert (∀ (s : string) (acc : Z),
            str_forall is_ascii_digit s = true → (0 ≤ acc)%Z →
            let v := (fix go (acc : Z) (s : string) : Z :=
                        match s with
                        | EmptyString => acc
                        | String c s' =>
                            go (10 * acc + (Z.of_nat (nat_of_ascii c) - 48))%Z s'
                        end) acc s in
            (0 ≤ v < (acc + 1) * 10 ^ Z.of_nat (String.length s))%Z) as Hgo.
  { clear s. induction s as [|c s IH]; intros acc Hs Hacc; simpl in *; [lia|].
    apply andb_prop in Hs as [Hc Hs]. unfold is_ascii_digit in Hc.
    apply andb_prop in Hc as [Hlo%Nat.leb_le Hhi%Nat.leb_le].
    specialize (IH (10 * acc + (Z.of_nat (nat_of_ascii c) - 48))%Z Hs).
    simpl in IH. destruct IH as [IH1 IH2]; [lia|]. split; [done|].
    eapply Z.lt_le_trans; [exact IH2|].
    rewrite Nat2Z.inj_succ, Z.pow_succ_r by lia.
    assert (0 < 10 ^ Z.of_nat (String.length s))%Z by (apply Z.pow_pos_nonneg; lia).
    nia. }
  intros Hs. specialize (Hgo s 0%Z Hs). simpl in Hgo. lia.
Qed.

Lemma valid_ic_true (ic : string) :
  valid_ic ic = true
  ↔ String.length ic = 12%nat ∧ str_forall is_ascii_digit ic = true.
Proof.
  unfold valid_ic. rewrite andb_true_iff, Nat.eqb_eq, str_isdigit_forall.
  split; [tauto|]. intros [Hl Hd]. rewrite Hl. done.
Qed.

Lemma fold_sum_bounds (ic : string) :
  valid_ic ic = true → (0 ≤ fold_sum ic ≤ 3996)%Z.
Proof.
  intros [Hlen Hd]%valid_ic_true. unfold fold_sum.
  assert (∀ i, (i + 3 ≤ 12)%nat →
               (0 ≤ decimal_value (str_slice ic i (i + 3)) ≤ 999)%Z) as Hblock.
  { intros i Hi.
    pose proof (decimal_value_bounds (str_slice ic i (i + 3))) as Hb.
    unfold str_slice in *.
    rewrite str_length_take, str_length_drop, Hlen in Hb.
    replace ((i + 3 - i) `min` (12 - i))%nat with 3%nat in Hb by lia.
    change (10 ^ Z.of_nat 3)%Z with 1000%Z in Hb.
    specialize (Hb ltac:(by apply str_forall_take, str_forall_drop)). lia. }
  pose proof (Hblock 0%nat ltac:(lia)). pose proof (Hblock 3%nat ltac:(lia)).
  pose proof (Hblock 6%nat ltac:(lia)). pose proof (Hblock 9%nat ltac:(lia)).
  simpl in *. lia.
Qed.

(** ** [folding_hash] *)

Lemma folding_hash_invalid (ic : string) (n : Z) :
  valid_ic ic = false → folding_hash ic n = Throw ValueError.
Proof.
  unfold valid_ic, folding_hash. intros Hv.
  by rewrite <- negb_andb, Hv.
Qed.

Lemma folding_hash_valid (ic : string) (n : Z) :
  valid_ic ic = true → folding_hash ic n = py_mod (fold_sum ic) n.
Proof.
  intros Hv. unfold folding_hash. pose proof Hv as [Hlen Hd]%valid_ic_true.
  unfold valid_ic in Hv. rewrite <- negb_andb, Hv. simpl.
  unfold int_of_digits.
  pose proof (str_isdigit_slice ic 0 Hd ltac:(lia)) as H0.
  pose proof (str_isdigit_slice ic 3 Hd ltac:(lia)) as H3.
  pose proof (str_isdigit_slice ic 6 Hd ltac:(lia)) as H6.
  pose proof (str_isdigit_slice ic 9 Hd ltac:(lia)) as H9.
  simpl in H0, H3, H6, H9. rewrite H0, H3, H6, H9. simpl.
  unfold py_sum, fold_sum. simpl. done.
Qed.

Lemma folding_hash_positive (ic : string) (n : Z) :
  valid_ic ic = true → (0 < n)%Z →
  folding_hash ic n = Return (fold_sum ic `mod` n)%Z
  ∧ (0 ≤ fold_sum ic `mod` n < n)%Z
  ∧ (fold_sum ic `mod` n ≤ 3996)%Z.
Proof.
  intros Hv Hn. rewrite folding_hash_valid by done. unfold py_mod.
  rewrite (proj2 (Z.eqb_neq n 0)) by lia. split; [done|].
  pose proof (fold_sum_bounds ic Hv).
  pose proof (Z.mod_pos_bound (fold_sum ic) n Hn).
  split; [done|]. etrans; [apply Z.mod_le; lia|lia].
Qed.

(** X14: for an identity-card number of twelve digits and a positive
    table size, [folding_hash] returns the sum of the four blocks of three
    digits reduced modulo the size: an index into the table, and never more
    than 3996 however large the table is. *)
Theorem folding_hash_range (ic : string) (table_size : Z) :
  String.length ic = 12%nat →
  str_isdigit ic = true →
  (0 < table_size)%Z →
  ∃ h, folding_hash ic table_size = Return h
       ∧ h = (fold_sum ic `mod` table_size)%Z
       ∧ (0 ≤ h < table_size)%Z
       ∧ (h ≤ 3996)%Z.
Proof.
  intros Hlen Hd Hn.
  assert (valid_ic ic = true) as Hv.
  { unfold valid_ic. by rewrite Hlen, Hd. }
  destruct (folding_hash_positive ic table_size Hv Hn) as (Hh & Hr & Hmax).
  by eexists.
Qed.

Lemma folding_hash_range_witness :
  ∃ h, folding_hash "900101145678" 1009 = Return h ∧ (0 ≤ h < 1009)%Z.
Proof.
  destruct (folding_hash_range "900101145678" 1009) as (h & Hh & _ & Hr & _);
    [reflexivity|reflexivity|lia|].
  by exists h.
Defined.

(** X15: [folding_hash] raises [ValueError] for an ASCII string that
    does not have twelve characters or has a character that is not a digit,
    whatever the table size, zero included; for twelve digits and table
    size zero it raises [ZeroDivisionError]; for twelve digits and a
    negative table size it returns a number that is not positive, above the
    table size. *)
Theorem folding_hash_edges :
  (∀ ic table_size,
     str_forall is_ascii ic = true →
     String.length ic ≠ 12%nat ∨ str_isdigit ic = false →
     folding_hash ic table_size = Throw ValueError)
  ∧ (∀ ic,
       String.length ic = 12%nat → str_isdigit ic = true →
       folding_hash ic 0 = Throw ZeroDivisionError)
  ∧ (∀ ic table_size,
       String.length ic = 12%nat → str_isdigit ic = true →
       (table_size < 0)%Z →
       ∃ h, folding_hash ic table_size = Return h ∧ (table_size < h ≤ 0)%Z).
Proof.
  split; [|split].
  - intros ic n _ Hbad. apply folding_hash_invalid. unfold valid_ic.
    destruct Hbad as [Hlen| ->]; [|apply andb_false_r].
    by rewrite (proj2 (Nat.eqb_neq _ _) Hlen).
  - intros ic Hlen Hd. rewrite folding_hash_valid; [done|].
    unfold valid_ic. by rewrite Hlen, Hd.
  - intros ic n Hlen Hd Hn. rewrite folding_hash_valid.
    + unfold py_mod. rewrite (proj2 (Z.eqb_neq n 0)) by lia.
      eexists. split; [done|]. by apply Z.mod_neg_bound.
    + unfold valid_ic. by rewrite Hlen, Hd.
Qed.

Lemma folding_hash_edges_witness :
  folding_hash "90010114567" 1009 = Throw ValueError
  ∧ folding_hash "90010114567X" 0 = Throw ValueError
  ∧ folding_hash "900101145678" 0 = Throw ZeroDivisionError
  ∧ ∃ h, folding_hash "900101145678" (-7) = Return h ∧ (-7 < h ≤ 0)%Z.
Proof.
  destruct folding_hash_edges as (Hvalue & Hzero & Hneg).
  split; [apply Hvalue; [reflexivity|by left]|].
  split; [apply Hvalue; [reflexivity|by right]|].
  split; [by apply Hzero|].
  apply Hneg; [reflexivity|reflexivity|lia].
Defined.

(** ** The order of the blocks *)

Lemma str_length_3 (s : string) :
  String.length s = 3%nat → ∃ x y z, s = String x (String y (String z "")).
Proof.
  destruct s as [|x [|y [|z [|w s]]]]; simpl; try done. intros _. by eexists _, _, _.
Qed.

Lemma fold_sum_blocks (a b c d : string) :
  three_digits a → three_digits b → three_digits c → three_digits d →
  valid_ic (a +:+ b +:+ c +:+ d) = true
  ∧ fold_sum (a +:+ b +:+ c +:+ d)
    = (decimal_value a + decimal_value b + decimal_value c + decimal_value d)%Z.
Proof.
  intros [La Da] [Lb Db] [Lc Dc] [Ld Dd]. split.
  - apply valid_ic_true. rewrite !str_length_app, !str_forall_app.
    rewrite La, Lb, Lc, Ld, Da, Db, Dc, Dd. done.
  - apply str_length_3 in La as (a1 & a2 & a3 & ->).
    apply str_length_3 in Lb as (b1 & b2 & b3 & ->).
    apply str_length_3 in Lc as (c1 & c2 & c3 & ->).
    apply str_length_3 in Ld as (d1 & d2 & d3 & ->).
    reflexivity.
Qed.

Lemma sum_values_perm (l l' : list string) :
  l ≡ₚ l' →
  foldr Z.add 0%Z (decimal_value <$> l) = foldr Z.add 0%Z (decimal_value <$> l').
Proof.
  induction 1 as [|x l l' _ IH|x y l|l l' l'' _ IH1 _ IH2]; csimpl;
    [done|by rewrite IH|lia|congruence].
Qed.

(** X16: the hash does not see the order of the blocks: two numbers made
    of the same four blocks of three digits, in any two orders, get the
    same result from [folding_hash], for every table size. *)
Theorem folding_hash_block_order (a b c d a' b' c' d' : string) (table_size : Z) :
  Forall three_digits [a; b; c; d] →
  [a; b; c; d] ≡ₚ [a'; b'; c'; d'] →
  folding_hash (a +:+ b +:+ c +:+ d) table_size
  = folding_hash (a' +:+ b' +:+ c' +:+ d') table_size.
Proof.
  intros Hblocks Hperm.
  assert (Forall three_digits [a'; b'; c'; d']) as Hblocks' by by rewrite <- Hperm.
  apply sum_values_perm in Hperm. simpl in Hperm.
  repeat match goal with
         | H : Forall _ (_ :: _) |- _ => apply Forall_cons in H as [? H]
         end.
  destruct (fold_sum_blocks a b c d) as [Hv Hs]; [done..|].
  destruct (fold_sum_blocks a' b' c' d') as [Hv' Hs']; [done..|].
  rewrite !folding_hash_valid by done. f_equal. lia.
Qed.

Lemma folding_hash_block_order_witness :
  folding_hash "900101145678" 1009 = folding_hash "101900145678" 1009.
Proof.
  apply (folding_hash_block_order "900" "101" "145" "678" "101" "900" "145" "678").
  - repeat constructor.
  - apply perm_swap.
Defined.

(** * Properties of the hash table *)

Lemma length_chains n l : length (chains n l) = Z.to_nat n.
Proof. unfold chains. by rewrite length_fmap, length_seq. Qed.

Lemma chains_lookup n l (k : nat) :
  (k < Z.to_nat n)%nat →
  chains n l !! k
  = Some (filter (λ ic, (fold_sum ic `mod` n)%Z = Z.of_nat k) l).
Proof.
  intros Hk. unfold chains. rewrite list_lookup_fmap, lookup_seq_lt by done.
  done.
Qed.

Lemma chains_snoc n l ic (k : nat) :
  (k < Z.to_nat n)%nat →
  (fold_sum ic `mod` n)%Z = Z.of_nat k →
  chains n (l ++ [ic])
  = <[k := filter (λ ic, (fold_sum ic `mod` n)%Z = Z.of_nat k) l ++ [ic]]>
      (chains n l).
Proof.
  intros Hk Hh. apply list_eq. intros i.
  destruct (decide (i < Z.to_nat n)%nat) as [Hi|Hi].
  - destruct (decide (k = i)) as [->|Hne].
    + rewrite list_lookup_insert_eq by by rewrite length_chains.
      rewrite chains_lookup by done. f_equal.
      rewrite filter_app. f_equal.
      rewrite filter_cons_True by done. done.
    + rewrite list_lookup_insert_ne by done.
      rewrite !chains_lookup by done. f_equal.
      rewrite filter_app, filter_cons_False by lia.
      by rewrite filter_nil, app_nil_r.
  - rewrite !lookup_ge_None_2; [done|..];
      rewrite ?length_insert, length_chains; lia.
Qed.

Lemma used_slots_insert (table : list (list string)) k chain chain' :
  table !! k = Some chain →
  (used_slots (<[k := chain']> table) + (if decide (chain ≠ []) then 1 else 0)
   = used_slots table + (if decide (chain' ≠ []) then 1 else 0))%nat.
Proof.
  intros Hk. unfold used_slots.
  rewrite insert_take_drop by by eapply lookup_lt_Some.
  rewrite <- (take_drop_middle table k chain Hk) at 3.
  rewrite !filter_app, !filter_cons, !length_app.
  repeat case_decide; simpl; lia.
Qed.

(** What the loop has done after the numbers [done] of a list of valid
    numbers: the table is [chains] of them, and the collisions counted so
    far are the numbers less the chains in use. *)
Lemma insert_loop_chains (n : Z) (ic_list done : list string) :
  (0 < n)%Z →
  Forall (λ ic, valid_ic ic = true) ic_list →
  insert_loop n ic_list
    (chains n done,
     (Z.of_nat (length done) - Z.of_nat (used_slots (chains n done)))%Z)
  = Return
      (chains n (done ++ ic_list),
       (Z.of_nat (length (done ++ ic_list))
        - Z.of_nat (used_slots (chains n (done ++ ic_list))))%Z).
Proof.
  intros Hn Hvalid. revert done.
  induction Hvalid as [|ic ic_list Hv _ IH]; intros done; simpl.
  { by rewrite app_nil_r. }
  rewrite folding_hash_valid by done. unfold py_mod.
  rewrite (proj2 (Z.eqb_neq n 0)) by lia. simpl.
  pose proof (Z.mod_pos_bound (fold_sum ic) n Hn) as Hh.
  set (k := Z.to_nat (fold_sum ic `mod` n)).
  assert ((fold_sum ic `mod` n)%Z = Z.of_nat k) as Hk by (unfold k; lia).
  assert (k < Z.to_nat n)%nat as Hlt by (unfold k; lia).
  unfold list_index. rewrite length_chains.
  rewrite (proj2 (Z.leb_le 0 _)) by lia.
  rewrite (proj2 (Z.ltb_lt _ _)) by lia. simpl.
  fold k. rewrite chains_lookup by done. simpl.
  rewrite <- (chains_snoc n done ic k) by done.
  replace (done ++ ic :: ic_list) with ((done ++ [ic]) ++ ic_list)
    by by rewrite <- app_assoc.
  rewrite <- IH. f_equal. f_equal.
  pose proof (used_slots_insert (chains n done) k
                (filter (λ ic0, (fold_sum ic0 `mod` n)%Z = Z.of_nat k) done)
                (filter (λ ic0, (fold_sum ic0 `mod` n)%Z = Z.of_nat k) done ++ [ic])
                (chains_lookup n done k Hlt)) as Hslots.
  rewrite <- (chains_snoc n done ic k) in Hslots by done.
  rewrite length_app. simpl.
  destruct (filter (λ ic0, (fold_sum ic0 `mod` n)%Z = Z.of_nat k) done)
    as [|x chain] eqn:Hchain.
  - rewrite bool_decide_eq_false_2 by by intros H; apply H.
    rewrite decide_False in Hslots by by intros H; apply H.
    rewrite decide_True in Hslots by done. lia.
  - rewrite bool_decide_eq_true_2 by done.
    rewrite !decide_True in Hslots by done. lia.
Qed.

Lemma chains_nil n : used_slots (chains n []) = 0%nat.
Proof.
  unfold used_slots, chains.
  induction (seq 0 (Z.to_nat n)) as [|i l IH]; csimpl; [done|].
  by rewrite filter_cons_False by by intros H; apply H.
Qed.



Lemma valid_ic_of_digits (l : list string) :
  Forall (λ ic, String.length ic = 12%nat ∧ str_isdigit ic = true) l →
  Forall (λ ic, valid_ic ic = true) l.
Proof.
  intros Hl. eapply Forall_impl; [exact Hl|].
  intros ic [Hlen Hd]. unfold valid_ic. by rewrite Hlen, Hd.
Qed.

Lemma insert_to_hash_table_valid (ic_list : list string) (n : Z) :
  (0 < n)%Z → ic_list ≠ [] →
  Forall (λ ic, valid_ic ic = true) ic_list →
  insert_to_hash_table ic_list n
  = Return (chains n ic_list,
            (Z.of_nat (length ic_list)
             - Z.of_nat (used_slots (chains n ic_list)))%Z,
            QArith_base.Qmake
              (Z.of_nat (length ic_list)
               - Z.of_nat (used_slots (chains n ic_list)))%Z
              (Pos.of_nat (length ic_list))).
Proof.
  intros Hn Hne Hvalid. unfold insert_to_hash_table.
  pose proof (insert_loop_chains n ic_list [] Hn Hvalid) as Hloop.
  rewrite chains_nil in Hloop. simpl in Hloop.
  replace (Z.of_nat 0 - Z.of_nat 0)%Z with 0%Z in Hloop by done.
  replace (replicate (Z.to_nat n) []) with (chains n []).
  - rewrite Hloop. simpl.
    rewrite bool_decide_eq_false_2; [done|]. by destruct ic_list.
  - unfold chains. clear. generalize 0%nat.
    induction (Z.to_nat n) as [|m IH]; intros start; csimpl; [done|].
    by rewrite IH.
Qed.

Lemma filter_ext_Forall {A : Type} (P Q : A → Prop)
    `{!∀ x, Decision (P x)} `{!∀ x, Decision (Q x)} (l : list A) :
  Forall (λ x, P x ↔ Q x) l → filter P l = filter Q l.
Proof.
  induction 1 as [|x l Hx _ IH]; [done|].
  rewrite !filter_cons, IH.
  destruct (decide (P x)), (decide (Q x)); tauto.
Qed.

(** X17: for a positive table size and a non-empty list of numbers of
    twelve digits, [insert_to_hash_table] returns a table with one chain per
    slot, and chain [i] holds the numbers of the list that [folding_hash]
    sends to [i], in the order of the list. *)
Theorem insert_to_hash_table_chains (ic_list : list string) (table_size : Z) :
  (0 < table_size)%Z →
  ic_list ≠ [] →
  Forall (λ ic, String.length ic = 12%nat ∧ str_isdigit ic = true) ic_list →
  ∃ table collisions rate,
    insert_to_hash_table ic_list table_size = Return (table, collisions, rate)
    ∧ length table = Z.to_nat table_size
    ∧ ∀ i : nat,
        (i < Z.to_nat table_size)%nat →
        table !! i
        = Some (filter (λ ic, folding_hash ic table_size = Return (Z.of_nat i))
                       ic_list).
Proof.
  intros Hn Hne Hdigits. pose proof (valid_ic_of_digits _ Hdigits) as Hvalid.
  eexists _, _, _. split; [by apply insert_to_hash_table_valid|].
  split; [apply length_chains|].
  intros i Hi. rewrite chains_lookup by done. f_equal.
  apply filter_ext_Forall. eapply Forall_impl; [exact Hvalid|].
  intros ic Hv. simpl. rewrite folding_hash_valid by done.
  unfold py_mod. rewrite (proj2 (Z.eqb_neq table_size 0)) by lia.
  split; [by intros ->|by intros [= ->]].
Qed.

Lemma insert_to_hash_table_chains_witness :
  ∃ table collisions rate,
    insert_to_hash_table ["900101145678"; "101900145678"; "850505105555"] 7
    = Return (table, collisions, rate)
    ∧ table !! 4%nat = Some ["900101145678"; "101900145678"].
Proof.
  destruct (insert_to_hash_table_chains
              ["900101145678"; "101900145678"; "850505105555"] 7)
    as (table & collisions & rate & Hrun & _ & Hchain);
    [lia|done|repeat constructor|].
  exists table, collisions, rate. split; [done|].
  rewrite (Hchain 4%nat) by (vm_compute; lia). vm_compute. reflexivity.
Defined.



Lemma insert_one_valid (n : Z) (table : list (list string)) (c : Z) (ic : string) :
  (0 < n)%Z → length table = Z.to_nat n → valid_ic ic = true →
  ∃ table' c', insert_one n (table, c) ic = Return (table', c')
               ∧ length table' = Z.to_nat n.
Proof.
  intros Hn Hlen Hv. unfold insert_one.
  rewrite folding_hash_valid by done. unfold py_mod.
  rewrite (proj2 (Z.eqb_neq n 0)) by lia. simpl.
  pose proof (Z.mod_pos_bound (fold_sum ic) n Hn) as Hh.
  unfold list_index. rewrite Hlen.
  rewrite (proj2 (Z.leb_le 0 _)) by lia.
  rewrite (proj2 (Z.ltb_lt _ _)) by lia. simpl.
  destruct (lookup_lt_is_Some_2 table (Z.to_nat (fold_sum ic `mod` n)))
    as [chain ->]; [lia|].
  eexists _, _. split; [done|]. by rewrite length_insert.
Qed.

Lemma insert_loop_invalid (n : Z) (ic_list : list string)
    (table : list (list string)) (c : Z) :
  (0 < n)%Z → length table = Z.to_nat n →
  Exists (λ ic, valid_ic ic = false) ic_list →
  insert_loop n ic_list (table, c) = Throw ValueError.
Proof.
  intros Hn Hlen Hbad. revert table c Hlen.
  induction ic_list as [|ic ic_list IH]; intros table c Hlen.
  { by apply Exists_nil in Hbad. }
  change (insert_loop n (ic :: ic_list) (table, c))
    with (insert_one n (table, c) ic ≫= insert_loop n ic_list).
  destruct (valid_ic ic) eqn:Hv.
  - destruct (insert_one_valid n table c ic Hn Hlen Hv) as (t' & c' & -> & Hlen').
    simpl. apply IH; [|done].
    apply Exists_cons in Hbad as [Hbad|Hbad]; [congruence|done].
  - unfold insert_one. by rewrite folding_hash_invalid.
Qed.

(** X19: how [insert_to_hash_table] fails.  With an empty list it raises
    [ZeroDivisionError], whatever the table size.  With a positive table
    size and a list of ASCII strings one of which is not twelve digits it
    raises [ValueError].  With a list that starts with twelve digits it
    raises [ZeroDivisionError] for table size zero and [IndexError] for a
    negative one. *)
Theorem insert_to_hash_table_failures :
  (∀ table_size, insert_to_hash_table [] table_size = Throw ZeroDivisionError)
  ∧ (∀ ic_list table_size,
       (0 < table_size)%Z →
       Forall (λ ic, str_forall is_ascii ic = true) ic_list →
       Exists (λ ic, String.length ic ≠ 12%nat ∨ str_isdigit ic = false) ic_list →
       insert_to_hash_table ic_list table_size = Throw ValueError)
  ∧ (∀ ic ic_list,
       String.length ic = 12%nat → str_isdigit ic = true →
       insert_to_hash_table (ic :: ic_list) 0 = Throw ZeroDivisionError)
  ∧ (∀ ic ic_list table_size,
       String.length ic = 12%nat → str_isdigit ic = true →
       (table_size < 0)%Z →
       insert_to_hash_table (ic :: ic_list) table_size = Throw IndexError).
Proof.
  split; [done|]. split; [|split].
  - intros ic_list n Hn _ Hbad. unfold insert_to_hash_table.
    rewrite insert_loop_invalid; [done..| |].
    + by rewrite length_replicate.
    + eapply Exists_impl; [exact Hbad|]. intros ic Hic. unfold valid_ic.
      destruct Hic as [Hlen| ->]; [|apply andb_false_r].
      by rewrite (proj2 (Nat.eqb_neq _ _) Hlen).
  - intros ic ic_list Hlen Hd. unfold insert_to_hash_table. simpl.
    rewrite folding_hash_valid; [done|]. unfold valid_ic. by rewrite Hlen, Hd.
  - intros ic ic_list n Hlen Hd Hn. unfold insert_to_hash_table. simpl.
    rewrite folding_hash_valid by (unfold valid_ic; by rewrite Hlen, Hd).
    unfold py_mod. rewrite (proj2 (Z.eqb_neq n 0)) by lia. simpl.
    replace (Z.to_nat n) with 0%nat by lia. simpl.
    unfold list_index. simpl.
    repeat (destruct (andb _ _); simpl); done.
Qed.

Lemma insert_to_hash_table_failures_witness :
  insert_to_hash_table ["900101145678"; "90010114567"] 1009 = Throw ValueError
  ∧ insert_to_hash_table ["900101145678"] 0 = Throw ZeroDivisionError
  ∧ insert_to_hash_table ["900101145678"] (-3) = Throw IndexError.
Proof.
  destruct insert_to_hash_table_failures as (_ & Hvalue & Hzero & Hneg).
  split; [apply Hvalue; [lia|by repeat constructor|]|].
  { apply Exists_cons_tl, Exists_cons_hd. by left. }
  split; [by apply Hzero|by apply Hneg].
Defined.

(** * Generated identity-card numbers *)

Lemma format_0d_2_digits (x : Z) :
  (0 ≤ x ≤ 99)%Z → digits_of_width 2 (format_0d 2 x) = true.
Proof.
  assert (forallb (λ x, digits_of_width 2 (format_0d 2 x)) (seqZ 0 100) = true)
    as Hall by (vm_compute; reflexivity).
  intros Hx. rewrite forallb_forall in Hall.
  apply Hall, list_elem_of_In, elem_of_seqZ. lia.
Qed.

Lemma format_0d_3_digits (x : Z) :
  (0 ≤ x ≤ 999)%Z → digits_of_width 3 (format_0d 3 x) = true.
Proof.
  assert (forallb (λ x, digits_of_width 3 (format_0d 3 x)) (seqZ 0 1000) = true)
    as Hall by (vm_compute; reflexivity).
  intros Hx. rewrite forallb_forall in Hall.
  apply Hall, list_elem_of_In, elem_of_seqZ. lia.
Qed.

Lemma str_of_int_digit (x : Z) :
  (0 ≤ x ≤ 9)%Z → digits_of_width 1 (str_of_int x) = true.
Proof.
  assert (forallb (λ x, digits_of_width 1 (str_of_int x)) (seqZ 0 10) = true)
    as Hall by (vm_compute; reflexivity).
  intros Hx. rewrite forallb_forall in Hall.
  apply Hall, list_elem_of_In, elem_of_seqZ. lia.
Qed.

Lemma digits_of_width_app (m n : nat) (a b : string) :
  digits_of_width m a = true → digits_of_width n b = true →
  digits_of_width (m + n) (a +:+ b) = true.
Proof.
  unfold digits_of_width.
  intros [Ha%Nat.eqb_eq Da]%andb_prop [Hb%Nat.eqb_eq Db]%andb_prop.
  rewrite str_length_app, str_forall_app, Ha, Hb, Da, Db.
  by rewrite Nat.eqb_refl.
Qed.

Lemma generate_realistic_ic_valid (dob : date) (st sq g : Z) :
  ic_draws_in_range dob st sq g →
  valid_ic (generate_realistic_ic dob st sq g) = true.
Proof.
  intros (Hy & Hm & Hd & Hst & Hsq & Hg).
  unfold generate_realistic_ic, strftime_ymd.
  pose proof (Z.mod_pos_bound (year dob) 100 ltac:(lia)) as Hyy.
  assert (digits_of_width 12
            ((format_0d 2 (year dob `mod` 100) +:+ format_0d 2 (month dob)
              +:+ format_0d 2 (day dob))
             +:+ format_0d 2 st +:+ format_0d 3 sq +:+ str_of_int g) = true) as Hw.
  { apply (digits_of_width_app 6 6).
    - apply (digits_of_width_app 2 4); [apply format_0d_2_digits; lia|].
      apply (digits_of_width_app 2 2); apply format_0d_2_digits; lia.
    - apply (digits_of_width_app 2 4); [apply format_0d_2_digits; lia|].
      apply (digits_of_width_app 3 1);
        [apply format_0d_3_digits; lia|apply str_of_int_digit; lia]. }
  unfold digits_of_width in Hw. apply andb_prop in Hw as [Hlen Hdig].
  apply valid_ic_true. by apply Nat.eqb_eq in Hlen.
Qed.

Lemma format_0d_2_value (x : Z) :
  (0 ≤ x ≤ 99)%Z → decimal_value (format_0d 2 x) = x.
Proof.
  assert (forallb (λ x, decimal_value (format_0d 2 x) =? x)%Z (seqZ 0 100) = true)
    as Hall by (vm_compute; reflexivity).
  intros Hx. rewrite forallb_forall in Hall.
  apply Z.eqb_eq, Hall, list_elem_of_In, elem_of_seqZ. lia.
Qed.

Lemma format_0d_3_value (x : Z) :
  (0 ≤ x ≤ 999)%Z → decimal_value (format_0d 3 x) = x.
Proof.
  assert (forallb (λ x, decimal_value (format_0d 3 x) =? x)%Z (seqZ 0 1000) = true)
    as Hall by (vm_compute; reflexivity).
  intros Hx. rewrite forallb_forall in Hall.
  apply Z.eqb_eq, Hall, list_elem_of_In, elem_of_seqZ. lia.
Qed.

Lemma str_of_int_value (x : Z) :
  (0 ≤ x ≤ 9)%Z → decimal_value (str_of_int x) = x.
Proof.
  assert (forallb (λ x, decimal_value (str_of_int x) =? x)%Z (seqZ 0 10) = true)
    as Hall by (vm_compute; reflexivity).
  intros Hx. rewrite forallb_forall in Hall.
  apply Z.eqb_eq, Hall, list_elem_of_In, elem_of_seqZ. lia.
Qed.

Lemma digits_of_width_1 (s : string) :
  digits_of_width 1 s = true → ∃ x, s = String x "".
Proof.
  unfold digits_of_width. intros [Hl%Nat.eqb_eq _]%andb_prop.
  destruct s as [|x [|y s]]; simpl in Hl; try done. by eexists.
Qed.

Lemma digits_of_width_2 (s : string) :
  digits_of_width 2 s = true → ∃ x y, s = String x (String y "").
Proof.
  unfold digits_of_width. intros [Hl%Nat.eqb_eq _]%andb_prop.
  destruct s as [|x [|y [|z s]]]; simpl in Hl; try done. by eexists _, _.
Qed.

Lemma digits_of_width_3 (s : string) :
  digits_of_width 3 s = true → ∃ x y z, s = String x (String y (String z "")).
Proof.
  unfold digits_of_width. intros [Hl%Nat.eqb_eq _]%andb_prop.
  by apply str_length_3.
Qed.

(** X20: every number [generate_realistic_ic] can build is accepted by
    [folding_hash], and can be read back: for a date of birth from 1950 to
    2020 and draws within the ranges of the three [randint] calls, the
    number has twelve digits, its slices give back the two-digit year, the
    month, the day, the state code, the sequence number and the last digit,
    and for a positive table size [folding_hash] returns an index into the
    table. *)
Theorem generated_ic_is_hashed (dob : date) (state_draw sequential_draw
    gender_draw : Z) (table_size : Z) :
  ic_draws_in_range dob state_draw sequential_draw gender_draw →
  (0 < table_size)%Z →
  let ic := generate_realistic_ic dob state_draw sequential_draw gender_draw in
  String.length ic = 12%nat
  ∧ str_isdigit ic = true
  ∧ decimal_value (str_slice ic 0 2) = (year dob `mod` 100)%Z
  ∧ decimal_value (str_slice ic 2 4) = month dob
  ∧ decimal_value (str_slice ic 4 6) = day dob
  ∧ decimal_value (str_slice ic 6 8) = state_draw
  ∧ decimal_value (str_slice ic 8 11) = sequential_draw
  ∧ decimal_value (str_slice ic 11 12) = gender_draw
  ∧ ∃ h, folding_hash ic table_size = Return h ∧ (0 ≤ h < table_size)%Z.
Proof.
  intros Hdraws Hn ic.
  pose proof (generate_realistic_ic_valid _ _ _ _ Hdraws) as Hv.
  fold ic in Hv. pose proof Hv as [Hlen Hdig]%valid_ic_true.
  assert (str_isdigit ic = true) as Hisdigit.
  { apply str_isdigit_forall. by rewrite Hlen. }
  split; [done|]. split; [done|].
  destruct Hdraws as (Hy & Hm & Hd & Hst & Hsq & Hg).
  pose proof (Z.mod_pos_bound (year dob) 100 ltac:(lia)) as Hyy.
  assert (decimal_value (str_slice ic 0 2) = (year dob `mod` 100)%Z
          ∧ decimal_value (str_slice ic 2 4) = month dob
          ∧ decimal_value (str_slice ic 4 6) = day dob
          ∧ decimal_value (str_slice ic 6 8) = state_draw
          ∧ decimal_value (str_slice ic 8 11) = sequential_draw
          ∧ decimal_value (str_slice ic 11 12) = gender_draw) as Hread.
  { unfold ic, generate_realistic_ic, strftime_ymd. clear ic Hv Hlen Hdig Hisdigit.
    pose proof (format_0d_2_value (year dob `mod` 100) ltac:(lia)) as V1.
    pose proof (format_0d_2_value (month dob) ltac:(lia)) as V2.
    pose proof (format_0d_2_value (day dob) ltac:(lia)) as V3.
    pose proof (format_0d_2_value state_draw ltac:(lia)) as V4.
    pose proof (format_0d_3_value sequential_draw ltac:(lia)) as V5.
    pose proof (str_of_int_value gender_draw ltac:(lia)) as V6.
    destruct (digits_of_width_2 _ (format_0d_2_digits (year dob `mod` 100) ltac:(lia)))
      as (a1 & a2 & Ea).
    destruct (digits_of_width_2 _ (format_0d_2_digits (month dob) ltac:(lia)))
      as (b1 & b2 & Eb).
    destruct (digits_of_width_2 _ (format_0d_2_digits (day dob) ltac:(lia)))
      as (c1 & c2 & Ec).
    destruct (digits_of_width_2 _ (format_0d_2_digits state_draw ltac:(lia)))
      as (d1 & d2 & Ed).
    destruct (digits_of_width_3 _ (format_0d_3_digits sequential_draw ltac:(lia)))
      as (e1 & e2 & e3 & Ee).
    destruct (digits_of_width_1 _ (str_of_int_digit gender_draw ltac:(lia)))
      as (f1 & Ef).
    rewrite Ea, Eb, Ec, Ed, Ee, Ef in *.
    by repeat split. }
  destruct Hread as (? & ? & ? & ? & ? & ?).
  repeat (split; [done|]).
  destruct (folding_hash_positive ic table_size Hv Hn) as (Hh & Hr & _).
  by eexists.
Qed.

Lemma generated_ic_is_hashed_witness :
  generate_realistic_ic (mkdate 1990 1 1) 14 567 8 = "900101145678"
  ∧ ∃ h, folding_hash (generate_realistic_ic (mkdate 1990 1 1) 14 567 8) 1009
         = Return h
         ∧ (0 ≤ h < 1009)%Z.
Proof.
  split; [vm_compute; reflexivity|].
  destruct (generated_ic_is_hashed (mkdate 1990 1 1) 14 567 8 1009)
    as (_ & _ & _ & _ & _ & _ & _ & _ & Hh).
  - unfold ic_draws_in_range. simpl. lia.
  - lia.
  - exact Hh.
Defined.

(** * Properties of the benchmark workload *)

Lemma workload_turn_range (int_temp : nat → Z → Z) (num : Z) :
  (0 ≤ workload_turn int_temp num < 10000)%Z.
Proof.
  unfold workload_turn. rewrite seq_S, foldl_app.
  set (before_last := foldl _ num (seq 0 999)). clearbody before_last.
  cbn [foldl]. apply Z.mod_pos_bound. lia.
Qed.

Lemma foldl_snoc_fmap {A B : Type} (f : A → B) (l : list A) (acc : list B) :
  foldl (λ acc x, acc ++ [f x]) acc l = acc ++ (f <$> l).
Proof.
  revert acc. induction l as [|x l IH]; intros acc; csimpl.
  - by rewrite app_nil_r.
  - rewrite IH. by rewrite <- app_assoc.
Qed.

(** X21: whatever the random generator draws, [generate_random_numbers]
    returns a hundred numbers, each from 0 to 9999: the first draw of a
    turn may be 10000, what the turn keeps may not. *)
Theorem generated_numbers_in_range (randint : nat → Z)
    (int_temp : nat → nat → Z → Z) :
  length (generate_random_numbers randint int_temp) = 100%nat
  ∧ Forall (λ num, (0 ≤ num ≤ 9999)%Z) (generate_random_numbers randint int_temp).
Proof.
  unfold generate_random_numbers. rewrite foldl_snoc_fmap, app_nil_l. split.
  - by rewrite length_fmap, length_seq.
  - apply Forall_forall. intros num (i & -> & _)%list_elem_of_fmap.
    pose proof (workload_turn_range (int_temp i) (randint i)). lia.
Qed.
